(** * A shallow embedding of [our_parser.py]

    The recursive-descent parser of [src/test_files/our_parser.py] is
    embedded as state-passing functions over the fields of the Python
    [Parser] object.  Each method becomes a computation in a small
    state-and-exception monad; the [while] loops and the recursion between
    grammar routines are driven by a fuel argument, and a separate theorem
    shows that fuel linear in the number of tokens is always enough.

    Tokens are the pairs [(token, lexeme)] of the scanner, which is not part
    of the embedding: the token string is the input.  [Node] objects are
    always truthy in Python, so [if node:] tests for [None].  The
    interpreter's recursion limit is not modelled. *)

From Stdlib Require Import String Ascii List Arith Bool Lia.
Import ListNotations.
Open Scope string_scope.

(** ** Data model *)

(** A token is the tuple [(token, lexeme)] produced by the scanner. *)
Definition Token : Type := (string * string)%type.

(** [class Node]: a name, an optional value and an ordered list of children. *)
#[warnings="-register-all"]
Inductive Node : Type :=
| mkNode (name : string) (value : option string) (children : list Node).

Definition name (n : Node) : string := let 'mkNode x _ _ := n in x.
Definition value (n : Node) : option string := let 'mkNode _ v _ := n in v.
Definition children (n : Node) : list Node := let 'mkNode _ _ c := n in c.

(** [Node.add_child]: [self.children.append(child)]. *)
Definition add_child (n child : Node) : Node :=
  mkNode (name n) (value n) (children n ++ [child]).

(** The string ["  " * depth]. *)
Fixpoint indentation (depth : nat) : string :=
  match depth with
  | 0 => ""
  | S d => "  " ++ indentation d
  end.

(** The text [{self.value}] of a value: a lexeme prints as it is, [None] as
    the word. *)
Definition format_value (v : option string) : string :=
  match v with
  | Some l => l
  | None => "None"
  end.

(** [Node.print_tree]: the lines written to standard output, in order. *)
Fixpoint print_tree (n : Node) (depth : nat) : list string :=
  let indent := indentation depth in
  (indent ++ name n ++ ": " ++ format_value (value n)) ::
  flat_map (fun child => print_tree child (depth + 1)) (children n).

(** The instance fields of [class Parser]. *)
Record Parser : Type := mkParser {
  tokens : list Token;
  current_token : option Token;
  index : nat;
  errors : list string
}.

(** [Parser.__init__], given the token string returned by the scanner. *)
Definition init (toks : list Token) : Parser :=
  mkParser toks None 0 [].

(** ** The monad of parser methods *)

(** The only exception the methods can raise on well-typed token strings is
    the [TypeError] of subscripting [self.current_token] when it is [None]. *)
Inductive exn : Type := TypeError.

Inductive outcome (A : Type) : Type :=
| Ok (a : A) (s : Parser)
| Raised (e : exn) (s : Parser)
| OutOfFuel.
Arguments Ok {A} a s.
Arguments Raised {A} e s.
Arguments OutOfFuel {A}.

Definition M (A : Type) : Type := Parser -> outcome A.

Definition ret {A} (a : A) : M A := fun s => Ok a s.

Definition bind {A B} (m : M A) (k : A -> M B) : M B :=
  fun s =>
    match m s with
    | Ok a s' => k a s'
    | Raised e s' => Raised e s'
    | OutOfFuel => OutOfFuel
    end.

Definition out_of_fuel {A} : M A := fun _ => OutOfFuel.

Declare Scope parser_scope.
Delimit Scope parser_scope with parser.
Notation "x <- m ;; k" := (bind m (fun x => k))
  (at level 61, m at next level, right associativity) : parser_scope.
Notation "m ;; k" := (bind m (fun _ => k))
  (at level 61, right associativity) : parser_scope.
Open Scope parser_scope.

(** [self.current_token[0]] and [self.current_token[1]]. *)
Definition current_kind : M string :=
  fun s => match current_token s with
           | Some (k, _) => Ok k s
           | None => Raised TypeError s
           end.

Definition current_lexeme : M string :=
  fun s => match current_token s with
           | Some (_, l) => Ok l s
           | None => Raised TypeError s
           end.

(** The text [{self.current_token[0]}: {self.current_token[1]}] of the
    diagnostics. *)
Definition found_current : M string :=
  k <- current_kind ;;
  l <- current_lexeme ;;
  ret (k ++ ": " ++ l).

(** [self.errors.append(msg)]. *)
Definition append_error (msg : string) : M unit :=
  fun s => Ok tt (mkParser (tokens s) (current_token s) (index s)
                           (errors s ++ [msg])).

Definition get_current : M (option Token) := fun s => Ok (current_token s) s.
Definition get_errors : M (list string) := fun s => Ok (errors s) s.

(** ** Token cursor *)

Definition consume_token : M unit :=
  fun s =>
    if Nat.ltb (index s) (length (tokens s))
    then Ok tt (mkParser (tokens s) (nth_error (tokens s) (index s))
                         (S (index s)) (errors s))
    else Ok tt (mkParser (tokens s) None (index s) (errors s)).

Definition match_token (expected_token : string) : M bool :=
  fun s =>
    match current_token s with
    | Some (k, _) => Ok (String.eqb k expected_token) s
    | None => Ok false s
    end.

Definition expect_token (expected_token : string) : M unit :=
  b <- match_token expected_token ;;
  if b then consume_token
  else
    found <- found_current ;;
    append_error ("Expected '" ++ expected_token ++ "', found " ++ found).

Definition newline : M unit := expect_token "NEWLINE".
Definition indent : M unit := expect_token "INDENT".

Fixpoint skip_whitespace (fuel : nat) : M unit :=
  match fuel with
  | 0 => out_of_fuel
  | S f =>
      b <- match_token "WHITESPACE" ;;
      if b then consume_token ;; skip_whitespace f else ret tt
  end.

(** ** Grammar routines *)

Definition logical_expression : M (option Node) :=
  let logical_expression_node := @None Node in
  ret logical_expression_node.

Fixpoint expression (fuel : nat) : M (option Node) :=
  match fuel with
  | 0 => out_of_fuel
  | S f =>
      skip_whitespace f ;;
      term_node <- term f ;;
      match term_node with
      | Some t =>
          expression_loop f (add_child (mkNode "expression" None []) t)
      | None =>
          found <- found_current ;;
          append_error ("Expected a term, found " ++ found) ;;
          ret None
      end
  end

with expression_loop (fuel : nat) (expression_node : Node) : M (option Node) :=
  match fuel with
  | 0 => out_of_fuel
  | S f =>
      b <- match_token "ARITHMETIC_OPERATOR" ;;
      if b then
        lexeme <- current_lexeme ;;
        let arithmetic_operator_node :=
          mkNode "arithmetic_operator" (Some lexeme) [] in
        consume_token ;;
        term_node <- term f ;;
        match term_node with
        | Some t =>
            expression_loop f
              (add_child (add_child expression_node arithmetic_operator_node) t)
        | None =>
            found <- found_current ;;
            append_error ("Expected a term, found " ++ found) ;;
            expression_loop f expression_node
        end
      else ret (Some expression_node)
  end

with term (fuel : nat) : M (option Node) :=
  match fuel with
  | 0 => out_of_fuel
  | S f =>
      let term_node := mkNode "term" None [] in
      skip_whitespace f ;;
      factor_node <- factor f ;;
      match factor_node with
      | Some fn => term_loop f (add_child term_node fn)
      | None =>
          found <- found_current ;;
          append_error ("Expected a factor, found " ++ found) ;;
          ret (Some term_node)
      end
  end

with term_loop (fuel : nat) (term_node : Node) : M (option Node) :=
  match fuel with
  | 0 => out_of_fuel
  | S f =>
      b <- match_token "ARITHMETIC_OPERATOR" ;;
      if b then
        lexeme <- current_lexeme ;;
        let arithmetic_operator_node :=
          mkNode "arithmetic_operator" (Some lexeme) [] in
        consume_token ;;
        factor_node <- factor f ;;
        match factor_node with
        | Some fn =>
            term_loop f
              (add_child (add_child term_node arithmetic_operator_node) fn)
        | None =>
            found <- found_current ;;
            append_error ("Expected a factor, found " ++ found) ;;
            term_loop f term_node
        end
      else ret (Some term_node)
  end

with factor (fuel : nat) : M (option Node) :=
  match fuel with
  | 0 => out_of_fuel
  | S f =>
      skip_whitespace f ;;
      b <- match_token "NUMBER" ;;
      if b then
        lexeme <- current_lexeme ;;
        consume_token ;;
        ret (Some (mkNode "number" (Some lexeme) []))
      else
      b <- match_token "IDENTIFIER" ;;
      if b then
        lexeme <- current_lexeme ;;
        consume_token ;;
        ret (Some (mkNode "identifier" (Some lexeme) []))
      else
      b <- match_token "STRING_LITERAL" ;;
      if b then
        lexeme <- current_lexeme ;;
        consume_token ;;
        ret (Some (mkNode "string_literal" (Some lexeme) []))
      else
      b <- match_token "OPENING_PARENTHESIS" ;;
      if b then
        consume_token ;;
        expression_node <- expression f ;;
        match expression_node with
        | Some e =>
            expect_token "CLOSING_PARENTHESIS" ;;
            consume_token ;;
            ret (Some e)
        | None => ret None
        end
      else
      b <- match_token "LOGICAL_EXPRESSION" ;;
      if b then logical_expression
      else
        k <- current_kind ;;
        append_error ("Invalid token " ++ k) ;;
        consume_token ;;
        ret None
  end.

Definition assignment_statement (fuel : nat) : M (option Node) :=
  match fuel with
  | 0 => out_of_fuel
  | S f =>
      b <- match_token "IDENTIFIER" ;;
      if b then
        lexeme <- current_lexeme ;;
        let identifier_node := mkNode "identifier" (Some lexeme) [] in
        consume_token ;;
        skip_whitespace f ;;
        expect_token "ASSIGNMENT_OPERATOR" ;;
        lexeme <- current_lexeme ;;
        let assignment_operator_node :=
          mkNode "assignment_operator" (Some lexeme) [] in
        consume_token ;;
        skip_whitespace f ;;
        expression_node <- expression f ;;
        match expression_node with
        | Some e =>
            let assignment_node := mkNode "assignment_statement" None [] in
            let assignment_node := add_child assignment_node identifier_node in
            let assignment_node :=
              add_child assignment_node assignment_operator_node in
            let assignment_node := add_child assignment_node e in
            ret (Some assignment_node)
        | None =>
            found <- found_current ;;
            append_error ("Expected an expression, found " ++ found) ;;
            ret None
        end
      else
        found <- found_current ;;
        append_error ("Expected an identifier, found " ++ found) ;;
        ret None
  end.

Fixpoint statement_list (fuel : nat) : M (option Node) :=
  match fuel with
  | 0 => out_of_fuel
  | S f => statement_list_loop f (mkNode "statement_list" None [])
  end

with statement_list_loop (fuel : nat) (statement_list_node : Node)
  : M (option Node) :=
  match fuel with
  | 0 => out_of_fuel
  | S f =>
      cur <- get_current ;;
      match cur with
      | Some _ =>
          statement_node <- statement f ;;
          match statement_node with
          | Some st =>
              statement_list_loop f (add_child statement_list_node st)
          | None => ret (Some statement_list_node)
          end
      | None => ret (Some statement_list_node)
      end
  end

with statement (fuel : nat) : M (option Node) :=
  match fuel with
  | 0 => out_of_fuel
  | S f =>
      statement_node <-
        (b <- match_token "IDENTIFIER" ;;
         if b then assignment_statement f
         else
         b <- match_token "CONDITIONAL_KEYWORD" ;;
         if b then conditional_statement f
         else
         b <- match_token "LOOP_KEYWORD" ;;
         if b then loop_statement f
         else
           found <- found_current ;;
           append_error ("Expected a statement type, found " ++ found) ;;
           consume_token ;;
           ret None) ;;
      newline ;;
      ret statement_node
  end

with conditional_statement (fuel : nat) : M (option Node) :=
  match fuel with
  | 0 => out_of_fuel
  | S f =>
      skip_whitespace f ;;
      b <- match_token "CONDITIONAL_KEYWORD" ;;
      if b then
        lexeme <- current_lexeme ;;
        let conditional_node :=
          mkNode "conditional_statement" (Some lexeme) [] in
        consume_token ;;
        logical_expression_node <- logical_expression ;;
        match logical_expression_node with
        | Some le =>
            let conditional_node := add_child conditional_node le in
            block_node <- block f ;;
            match block_node with
            | Some bn =>
                let conditional_node := add_child conditional_node bn in
                b <- match_token "CONDITIONAL_KEYWORD" ;;
                if b then
                  consume_token ;;
                  else_block_node <- block f ;;
                  match else_block_node with
                  | Some eb => ret (Some (add_child conditional_node eb))
                  | None => ret (Some conditional_node)
                  end
                else ret (Some conditional_node)
            | None => ret (Some conditional_node)
            end
        | None => ret (Some conditional_node)
        end
      else ret None
  end

with loop_statement (fuel : nat) : M (option Node) :=
  match fuel with
  | 0 => out_of_fuel
  | S f =>
      skip_whitespace f ;;
      b <- match_token "LOOP_KEYWORD" ;;
      if b then
        lexeme <- current_lexeme ;;
        let loop_node := mkNode "loop_statement" (Some lexeme) [] in
        consume_token ;;
        b <- match_token "IDENTIFIER" ;;
        if b then
          lexeme <- current_lexeme ;;
          let identifier_node := mkNode "identifier" (Some lexeme) [] in
          let loop_node := add_child loop_node identifier_node in
          consume_token ;;
          expect_token "COLON" ;;
          newline ;;
          indent ;;
          statement_list_node <- statement_list f ;;
          match statement_list_node with
          | Some sl => ret (Some (add_child loop_node sl))
          | None => ret (Some loop_node)
          end
        else
          found <- found_current ;;
          append_error ("Expected an identifier, found " ++ found) ;;
          ret (Some loop_node)
      else ret None
  end

with block (fuel : nat) : M (option Node) :=
  match fuel with
  | 0 => out_of_fuel
  | S f =>
      let block_node := mkNode "block" None [] in
      indent ;;
      statement_list_node <- statement_list f ;;
      match statement_list_node with
      | Some sl => ret (Some (add_child block_node sl))
      | None => ret (Some block_node)
      end
  end.

Definition program (fuel : nat) : M Node :=
  let program_node := mkNode "program" None [] in
  statement_list_node <- statement_list fuel ;;
  match statement_list_node with
  | Some sl => ret (add_child program_node sl)
  | None =>
      cur <- get_current ;;
      append_error
        ("Expected a statement_list, found " ++
         match cur with Some (k, _) => k | None => "end of input" end) ;;
      ret program_node
  end.

Definition parse (fuel : nat) : M (option Node) :=
  consume_token ;;
  parse_tree <- program fuel ;;
  errs <- get_errors ;;
  match errs with
  | [] => ret (Some parse_tree)
  | _ :: _ => ret None
  end.

(** * Vocabulary of the properties *)

Open Scope list_scope.

(** Tokens that are still to be consumed: the current one, if any, and those
    from [index] on. *)
Definition remaining (s : Parser) : nat :=
  (length (tokens s) - index s) +
  match current_token s with Some _ => 1 | None => 0 end.

(** Diagnostics of the error branch of [program]. *)
Definition statement_list_diagnostic (e : string) : bool :=
  String.prefix "Expected a statement_list" e.

(** [extends s s']: [s'] is reachable from [s] by moving the cursor forward
    and appending diagnostics, none of them the one of [program]. *)
Record extends (s s' : Parser) : Prop := mkExtends {
  ext_tokens : tokens s' = tokens s;
  ext_index : index s <= index s';
  ext_remaining : remaining s' <= remaining s;
  ext_errors : exists l, errors s' = (errors s ++ l)%list /\
                         Forall (fun e => statement_list_diagnostic e = false) l
}.

(** A computation is monotone when every state it ends in, normally or by an
    exception, extends the state it started from. *)
Definition monotone {A} (m : M A) : Prop :=
  forall s, match m s with
            | Ok _ s' | Raised _ s' => extends s s'
            | OutOfFuel => True
            end.

(** [refines m m']: wherever [m] does not run out of fuel, [m'] has the
    same outcome. *)
Definition refines {A} (m m' : M A) : Prop :=
  forall s, m s <> OutOfFuel -> m' s = m s.

(** [consumes m s]: when [m] returns from [s], fewer tokens remain. *)
Definition consumes {A} (m : M A) (s : Parser) : Prop :=
  forall r s', m s = Ok r s' -> remaining s' < remaining s.

(** The two monotonicity properties of the parser state, for a computation:
    the index does not decrease and the old error log is a prefix of the new
    one, in every state the computation ends in. *)
Definition cursor_and_log_monotone {A} (m : M A) : Prop :=
  forall s,
    match m s with
    | Ok _ s' | Raised _ s' =>
        index s <= index s' /\ exists l, errors s' = errors s ++ l
    | OutOfFuel => True
    end.

(** The lexeme of a NEWLINE token. *)
Definition nl : string := String "010"%char EmptyString.

(** The cursor on the first token of [toks], as [parse] leaves it before it
    calls [program]. *)
Definition started (toks : list Token) : Parser :=
  mkParser toks (nth_error toks 0) (match toks with [] => 0 | _ :: _ => 1 end)
    [].

(** Tokens of [a + 1 * 2]. *)
Definition a_plus_1_times_2 : list Token :=
  [("IDENTIFIER", "a"); ("ARITHMETIC_OPERATOR", "+"); ("NUMBER", "1");
   ("ARITHMETIC_OPERATOR", "*"); ("NUMBER", "2")]%string.

(** The tree [expression] builds for them. *)
Definition a_plus_1_times_2_tree : Node :=
  mkNode "expression" None
    [mkNode "term" None
       [mkNode "identifier" (Some "a") [];
        mkNode "arithmetic_operator" (Some "+") [];
        mkNode "number" (Some "1") [];
        mkNode "arithmetic_operator" (Some "*") [];
        mkNode "number" (Some "2") []]]%string.

(** Tokens of [if <logical> : NEWLINE INDENT x = 1 NEWLINE]. *)
Definition if_statement : list Token :=
  [("CONDITIONAL_KEYWORD", "if"); ("LOGICAL_EXPRESSION", "a > 1");
   ("COLON", ":"); ("NEWLINE", nl); ("INDENT", "    ");
   ("IDENTIFIER", "x"); ("ASSIGNMENT_OPERATOR", "="); ("NUMBER", "1");
   ("NEWLINE", nl)]%string.

(** Tokens of [a + 1]. *)
Definition a_plus_1 : list Token :=
  [("IDENTIFIER", "a"); ("ARITHMETIC_OPERATOR", "+"); ("NUMBER", "1")]%string.

(** Tokens of [( a + 1 )], of [( a + 1] and of [( a + 1] before a newline. *)
Definition parenthesised : list Token :=
  (("OPENING_PARENTHESIS", "(") :: a_plus_1 ++
   [("CLOSING_PARENTHESIS", ")")])%string.

Definition unclosed : list Token :=
  (("OPENING_PARENTHESIS", "(") :: a_plus_1)%string.

Definition unclosed_then_newline : list Token :=
  (("OPENING_PARENTHESIS", "(") :: a_plus_1 ++ [("NEWLINE", nl)])%string.

(** The tree [expression] builds for [a + 1]. *)
Definition a_plus_1_tree : Node :=
  mkNode "expression" None
    [mkNode "term" None
       [mkNode "identifier" (Some "a") [];
        mkNode "arithmetic_operator" (Some "+") [];
        mkNode "number" (Some "1") []]]%string.

(** The diagnostic of [statement] for a token that starts no statement. *)
Definition statement_type_message (k l : string) : string :=
  ("Expected a statement type, found " ++ k ++ ": " ++ l)%string.

(** Diagnostics of that form. *)
Definition statement_type_diagnostic (e : string) : bool :=
  String.prefix "Expected a statement type" e.

(** [shifted pre s s']: [s'] is [s] with [pre] put in front of the token
    string and the index moved accordingly. *)
Record shifted (pre : list Token) (s s' : Parser) : Prop := mkShifted {
  shifted_tokens : tokens s' = pre ++ tokens s;
  shifted_index : index s' = length pre + index s;
  shifted_current : current_token s' = current_token s;
  shifted_errors : errors s' = errors s
}.

(** Two outcomes of the same kind, with equal results and shifted states. *)
Definition outcome_shifted (pre : list Token) {A} (o o' : outcome A) : Prop :=
  match o, o' with
  | Ok a s, Ok a' s' => a = a' /\ shifted pre s s'
  | Raised e s, Raised e' s' => e = e' /\ shifted pre s s'
  | OutOfFuel, OutOfFuel => True
  | _, _ => False
  end.

(** A computation that behaves alike on a state and on its shifted copy. *)
Definition shift_invariant {A} (m : M A) : Prop :=
  forall pre s s', shifted pre s s' -> outcome_shifted pre (m s) (m s').

(** The four tokens of one line [x = v]. *)
Definition assignment_line (x v : string) : list Token :=
  [("IDENTIFIER", x); ("ASSIGNMENT_OPERATOR", "="); ("NUMBER", v);
   ("NEWLINE", nl)]%string.

(** The token string of [length lines] such lines. *)
Fixpoint assignment_lines (lines : list (string * string)) : list Token :=
  match lines with
  | [] => []
  | (x, v) :: lines' => assignment_line x v ++ assignment_lines lines'
  end.

(** [preserves P m]: every state [m] ends in, normally or by an exception,
    satisfies [P] when the state it started from does. *)
Definition preserves (P : Parser -> Prop) {A} (m : M A) : Prop :=
  forall s, P s ->
    match m s with
    | Ok _ s' | Raised _ s' => P s'
    | OutOfFuel => True
    end.

(** The cursor is coherent when the index is within the token string, the
    current token, if any, is the one just before the index, and the
    absence of a current token means that the index is at the end. *)
Definition coherent (s : Parser) : Prop :=
  index s <= length (tokens s) /\
  match current_token s with
  | Some t => 1 <= index s /\ nth_error (tokens s) (index s - 1) = Some t
  | None => index s = length (tokens s)
  end.


(** An operator node of [term] and [expression]: named
    [arithmetic_operator], with a lexeme and no children. *)
Definition operator_node (n : Node) : Prop :=
  name n = "arithmetic_operator"%string /\ children n = [] /\
  value n <> None.

(** The child list [first, op1, x1, op2, x2, ...] that the two chaining
    loops build. *)
Definition operand_chain (first : Node) (pairs : list (Node * Node))
  : list Node :=
  first :: flat_map (fun p => [fst p; snd p]) pairs.

(** [logged s s']: the error log of [s'] is the one of [s] followed by at
    least one diagnostic. *)
Definition logged (s s' : Parser) : Prop :=
  exists d ds, errors s' = errors s ++ d :: ds.

(** The five tokens of a line that the parser accepts: an identifier, the
    assignment operator, any one token [t], a number and the newline. *)
Definition accepted_line (x : string) (t : Token) (v : string) : list Token :=
  [("IDENTIFIER", x); ("ASSIGNMENT_OPERATOR", "=")%string; t;
   ("NUMBER", v); ("NEWLINE", nl)]%string.

Fixpoint accepted_lines (lines : list (string * Token * string))
  : list Token :=
  match lines with
  | [] => []
  | (x, t, v) :: lines' => accepted_line x t v ++ accepted_lines lines'
  end.

(** The node built for such a line. *)
Definition accepted_node (line : string * Token * string) : Node :=
  let '(x, t, v) := line in
  mkNode "assignment_statement" None
    [mkNode "identifier" (Some x) [];
     mkNode "assignment_operator" (Some (snd t)) [];
     mkNode "expression" None
       [mkNode "term" None [mkNode "number" (Some v) []]]]%string.

(** The statement nodes that can be built without a diagnostic. *)
Definition clean_statement (c : Node) : Prop :=
  name c = "assignment_statement"%string \/
  exists l, c = mkNode "conditional_statement" (Some l) [].

(** A token string whose last token is a NEWLINE. *)
Definition ends_with_newline (toks : list Token) : Prop :=
  exists l, nth_error toks (length toks - 1) = Some ("NEWLINE"%string, l).

(** * Properties *)

(** ** Basic facts about the monad *)

Lemma bind_Ok_inv {A B} (m : M A) (k : A -> M B) s b s2 :
  bind m k s = Ok b s2 ->
  exists a s1, m s = Ok a s1 /\ k a s1 = Ok b s2.
Proof.
  unfold bind. destruct (m s) as [a s1| |]; intros H; try discriminate.
  exists a, s1. split; [reflexivity | exact H].
Qed.

Lemma bind_not_out_of_fuel {A B} (m : M A) (k : A -> M B) s :
  m s <> OutOfFuel ->
  (forall a s1, m s = Ok a s1 -> k a s1 <> OutOfFuel) ->
  bind m k s <> OutOfFuel.
Proof.
  unfold bind. intros Hm Hk. destruct (m s) as [a s1| |].
  - apply Hk. reflexivity.
  - discriminate.
  - contradiction.
Qed.

(** ** The cursor only moves forward and the log only grows *)

Lemma extends_refl s : extends s s.
Proof.
  split; auto. exists []. split; [now rewrite app_nil_r | constructor].
Qed.

Lemma extends_trans s1 s2 s3 : extends s1 s2 -> extends s2 s3 -> extends s1 s3.
Proof.
  intros [T1 I1 R1 (l1 & E1 & F1)] [T2 I2 R2 (l2 & E2 & F2)].
  split; try congruence; try lia.
  exists (l1 ++ l2). split.
  - rewrite E2, E1, app_assoc. reflexivity.
  - apply Forall_app. split; assumption.
Qed.

Lemma monotone_Ok {A} (m : M A) s a s' :
  monotone m -> m s = Ok a s' -> extends s s'.
Proof. intros H E. specialize (H s). rewrite E in H. exact H. Qed.

Lemma monotone_ret {A} (a : A) : monotone (ret a).
Proof. intros s. apply extends_refl. Qed.

Lemma monotone_out_of_fuel {A} : monotone (@out_of_fuel A).
Proof. intros s. exact I. Qed.

Lemma monotone_bind {A B} (m : M A) (k : A -> M B) :
  monotone m -> (forall a, monotone (k a)) -> monotone (bind m k).
Proof.
  intros Hm Hk s. unfold bind. specialize (Hm s).
  destruct (m s) as [a s1| |]; auto.
  specialize (Hk a s1). destruct (k a s1); auto;
    eapply extends_trans; eassumption.
Qed.

Lemma monotone_current_kind : monotone current_kind.
Proof.
  intros s. unfold current_kind.
  destruct (current_token s) as [[k l]|]; apply extends_refl.
Qed.

Lemma monotone_current_lexeme : monotone current_lexeme.
Proof.
  intros s. unfold current_lexeme.
  destruct (current_token s) as [[k l]|]; apply extends_refl.
Qed.

Lemma monotone_found_current : monotone found_current.
Proof.
  unfold found_current.
  apply monotone_bind; [apply monotone_current_kind | intros k].
  apply monotone_bind; [apply monotone_current_lexeme | intros l].
  apply monotone_ret.
Qed.

Lemma monotone_get_current : monotone get_current.
Proof. intros s. apply extends_refl. Qed.

Lemma monotone_match_token k : monotone (match_token k).
Proof.
  intros s. unfold match_token.
  destruct (current_token s) as [[k' l]|]; apply extends_refl.
Qed.

Lemma monotone_append_error msg :
  statement_list_diagnostic msg = false -> monotone (append_error msg).
Proof.
  intros Hmsg s. unfold append_error. split; simpl; auto.
  exists [msg]. split; [reflexivity | repeat constructor; assumption].
Qed.

Lemma remaining_consume_token s s' :
  consume_token s = Ok tt s' ->
  remaining s' = length (tokens s) - index s.
Proof.
  unfold consume_token, remaining.
  destruct (Nat.ltb_spec (index s) (length (tokens s))) as [H|H];
    intros E; inversion E; subst; clear E; simpl.
  - destruct (nth_error (tokens s) (index s)) eqn:N.
    + lia.
    + apply nth_error_None in N. lia.
  - lia.
Qed.

Lemma monotone_consume_token : monotone consume_token.
Proof.
  intros s. destruct (consume_token s) as [[] s'| |] eqn:E;
    try (unfold consume_token in E;
         destruct (Nat.ltb (index s) (length (tokens s))); discriminate).
  pose proof (remaining_consume_token _ _ E) as R.
  unfold consume_token in E.
  destruct (Nat.ltb (index s) (length (tokens s)));
    inversion E; subst; clear E;
    (split; simpl; [reflexivity | lia | | exists []; split;
       [now rewrite app_nil_r | constructor]]);
    rewrite R; unfold remaining; simpl; lia.
Qed.

(** Consuming while a token is current uses one token up. *)
Lemma consume_token_progress s s' :
  current_token s <> None ->
  consume_token s = Ok tt s' ->
  remaining s' < remaining s.
Proof.
  intros C E. rewrite (remaining_consume_token _ _ E).
  unfold remaining. destruct (current_token s); [lia | contradiction].
Qed.

Lemma match_token_true k s b s' :
  match_token k s = Ok b s' ->
  s' = s /\ (b = true -> exists l, current_token s = Some (k, l)).
Proof.
  unfold match_token. destruct (current_token s) as [[k' l]|];
    intros E; inversion E; subst; clear E; split; auto; intros H.
  - apply String.eqb_eq in H. subst. eauto.
  - discriminate.
Qed.

Create HintDb monotone.

(** Every diagnostic of the grammar routines differs from the one of
    [program] within its first characters, which [reflexivity] checks. *)
Ltac monotone_step :=
  first
    [ assumption
    | solve [ auto with monotone ]
    | apply monotone_ret
    | apply monotone_out_of_fuel
    | apply monotone_consume_token
    | apply monotone_match_token
    | apply monotone_current_kind
    | apply monotone_current_lexeme
    | apply monotone_found_current
    | apply monotone_get_current
    | apply monotone_append_error; reflexivity
    | apply monotone_bind; [ | intros ? ]
    | match goal with
      | |- monotone (if ?b then _ else _) => destruct b
      | |- monotone (match ?x with Some _ => _ | None => _ end) => destruct x
      end ].

Ltac monotone_tac := cbv zeta; repeat monotone_step.

Lemma monotone_expect_token k : monotone (expect_token k).
Proof. unfold expect_token. monotone_tac. Qed.

Lemma monotone_newline : monotone newline.
Proof. apply monotone_expect_token. Qed.

Lemma monotone_indent : monotone indent.
Proof. apply monotone_expect_token. Qed.

Lemma monotone_skip_whitespace fuel : monotone (skip_whitespace fuel).
Proof. induction fuel as [|f IH]; simpl; monotone_tac. Qed.

Lemma monotone_logical_expression : monotone logical_expression.
Proof. unfold logical_expression. monotone_tac. Qed.

#[local] Hint Resolve monotone_ret monotone_consume_token monotone_match_token
  monotone_current_kind monotone_current_lexeme monotone_found_current
  monotone_get_current monotone_expect_token monotone_newline monotone_indent
  monotone_skip_whitespace monotone_logical_expression : monotone.

Lemma monotone_expression_group fuel :
  monotone (expression fuel) /\
  (forall n, monotone (expression_loop fuel n)) /\
  monotone (term fuel) /\
  (forall n, monotone (term_loop fuel n)) /\
  monotone (factor fuel).
Proof.
  induction fuel as [|f (IHe & IHel & IHt & IHtl & IHf)].
  - repeat split; intros; apply monotone_out_of_fuel.
  - repeat split; intros; simpl; monotone_tac.
Qed.

Lemma monotone_expression fuel : monotone (expression fuel).
Proof. apply monotone_expression_group. Qed.

Lemma monotone_term fuel : monotone (term fuel).
Proof. apply monotone_expression_group. Qed.

Lemma monotone_factor fuel : monotone (factor fuel).
Proof. apply monotone_expression_group. Qed.

Lemma monotone_expression_loop fuel n : monotone (expression_loop fuel n).
Proof. apply monotone_expression_group. Qed.

Lemma monotone_term_loop fuel n : monotone (term_loop fuel n).
Proof. apply monotone_expression_group. Qed.

#[local] Hint Resolve monotone_expression monotone_term monotone_factor
  monotone_expression_loop monotone_term_loop : monotone.

Lemma monotone_assignment_statement fuel :
  monotone (assignment_statement fuel).
Proof. destruct fuel; simpl; monotone_tac. Qed.

#[local] Hint Resolve monotone_assignment_statement : monotone.

Lemma monotone_statement_group fuel :
  monotone (statement_list fuel) /\
  (forall n, monotone (statement_list_loop fuel n)) /\
  monotone (statement fuel) /\
  monotone (conditional_statement fuel) /\
  monotone (loop_statement fuel) /\
  monotone (block fuel).
Proof.
  induction fuel as [|f (IHsl & IHsll & IHst & IHc & IHl & IHb)].
  - repeat split; intros; apply monotone_out_of_fuel.
  - repeat split; intros; simpl; monotone_tac.
Qed.

Lemma monotone_statement_list fuel : monotone (statement_list fuel).
Proof. apply monotone_statement_group. Qed.

Lemma monotone_statement_list_loop fuel n :
  monotone (statement_list_loop fuel n).
Proof. apply monotone_statement_group. Qed.

Lemma monotone_statement fuel : monotone (statement fuel).
Proof. apply monotone_statement_group. Qed.

Lemma monotone_conditional_statement fuel :
  monotone (conditional_statement fuel).
Proof. apply monotone_statement_group. Qed.

Lemma monotone_loop_statement fuel : monotone (loop_statement fuel).
Proof. apply monotone_statement_group. Qed.

Lemma monotone_block fuel : monotone (block fuel).
Proof. apply monotone_statement_group. Qed.

#[local] Hint Resolve monotone_statement_list monotone_statement_list_loop
  monotone_statement monotone_conditional_statement monotone_loop_statement
  monotone_block : monotone.

(** [statement_list] has no path that returns [None]. *)
Lemma statement_list_loop_returns_node fuel :
  forall n s r s',
    statement_list_loop fuel n s = Ok r s' -> exists n', r = Some n'.
Proof.
  induction fuel as [|f IH]; intros n s r s'; simpl.
  - discriminate.
  - unfold bind at 1, get_current.
    destruct (current_token s).
    + unfold bind. destruct (statement f s) as [[st|] s1| |];
        try discriminate.
      * apply IH.
      * intros E. inversion E. eauto.
    + intros E. inversion E. eauto.
Qed.

Lemma statement_list_returns_node fuel s r s' :
  statement_list fuel s = Ok r s' -> exists n, r = Some n.
Proof.
  destruct fuel; simpl; [discriminate|].
  apply statement_list_loop_returns_node.
Qed.

Lemma monotone_program fuel : monotone (program fuel).
Proof.
  intros s. unfold program, bind.
  pose proof (monotone_statement_list fuel s) as Hm.
  destruct (statement_list fuel s) as [r s1| |] eqn:E; auto.
  destruct (statement_list_returns_node _ _ _ _ E) as [n ->].
  exact Hm.
Qed.

#[local] Hint Resolve monotone_program : monotone.

Lemma monotone_parse fuel : monotone (parse fuel).
Proof.
  unfold parse.
  apply monotone_bind; [apply monotone_consume_token | intros _].
  apply monotone_bind; [apply monotone_program | intros t].
  intros s. unfold bind, get_errors. destruct (errors s); apply extends_refl.
Qed.

(** ** The outcome does not depend on the fuel, once there is enough *)

Lemma refines_refl {A} (m : M A) : refines m m.
Proof. intros s _. reflexivity. Qed.

Lemma refines_out_of_fuel {A} (m : M A) : refines out_of_fuel m.
Proof. intros s H. exfalso. apply H. reflexivity. Qed.

Lemma refines_bind {A B} (m m' : M A) (k k' : A -> M B) :
  refines m m' -> (forall a, refines (k a) (k' a)) ->
  refines (bind m k) (bind m' k').
Proof.
  intros Hm Hk s. unfold bind. specialize (Hm s).
  destruct (m s) as [a s1| |] eqn:E.
  - rewrite Hm by discriminate. apply Hk.
  - rewrite Hm by discriminate. reflexivity.
  - intros H. exfalso. apply H. reflexivity.
Qed.

Ltac refines_step :=
  first
    [ apply refines_refl
    | apply refines_out_of_fuel
    | match goal with
      | H : forall f', _ -> refines (?g _) (?g f') |- refines (?g _) (?g _) =>
          apply H; lia
      | H : forall n f', _ -> refines (?g _ n) (?g f' n)
        |- refines (?g _ _) (?g _ _) => apply H; lia
      end
    | apply refines_bind; [ | intros ? ]
    | match goal with
      | |- refines (if ?b then _ else _) _ => destruct b
      | |- refines (match ?x with Some _ => _ | None => _ end) _ => destruct x
      end ].

Ltac refines_tac := cbv zeta; repeat refines_step.

Lemma skip_whitespace_fuel fuel :
  forall fuel', fuel <= fuel' ->
    refines (skip_whitespace fuel) (skip_whitespace fuel').
Proof.
  induction fuel as [|f IH]; intros [|f'] Hle; simpl;
    try apply refines_out_of_fuel; try lia.
  refines_tac.
Qed.

Lemma expression_group_fuel fuel :
  (forall fuel', fuel <= fuel' -> refines (expression fuel) (expression fuel')) /\
  (forall n fuel', fuel <= fuel' ->
     refines (expression_loop fuel n) (expression_loop fuel' n)) /\
  (forall fuel', fuel <= fuel' -> refines (term fuel) (term fuel')) /\
  (forall n fuel', fuel <= fuel' ->
     refines (term_loop fuel n) (term_loop fuel' n)) /\
  (forall fuel', fuel <= fuel' -> refines (factor fuel) (factor fuel')).
Proof.
  induction fuel as [|f (IHe & IHel & IHt & IHtl & IHf)].
  - repeat split; intros; apply refines_out_of_fuel.
  - pose proof (skip_whitespace_fuel f) as IHw.
    repeat split; intros; (destruct fuel'; [lia|]); simpl; refines_tac.
Qed.

Lemma assignment_statement_fuel fuel fuel' :
  fuel <= fuel' ->
  refines (assignment_statement fuel) (assignment_statement fuel').
Proof.
  intros Hle. destruct fuel as [|f]; [apply refines_out_of_fuel|].
  destruct fuel' as [|f']; [lia|].
  pose proof (skip_whitespace_fuel f) as IHw.
  destruct (expression_group_fuel f) as (IHe & _).
  simpl. refines_tac.
Qed.

Lemma statement_group_fuel fuel :
  (forall fuel', fuel <= fuel' ->
     refines (statement_list fuel) (statement_list fuel')) /\
  (forall n fuel', fuel <= fuel' ->
     refines (statement_list_loop fuel n) (statement_list_loop fuel' n)) /\
  (forall fuel', fuel <= fuel' -> refines (statement fuel) (statement fuel')) /\
  (forall fuel', fuel <= fuel' ->
     refines (conditional_statement fuel) (conditional_statement fuel')) /\
  (forall fuel', fuel <= fuel' ->
     refines (loop_statement fuel) (loop_statement fuel')) /\
  (forall fuel', fuel <= fuel' -> refines (block fuel) (block fuel')).
Proof.
  induction fuel as [|f (IHsl & IHsll & IHst & IHc & IHl & IHb)].
  - repeat split; intros; apply refines_out_of_fuel.
  - pose proof (skip_whitespace_fuel f) as IHw.
    pose proof (assignment_statement_fuel f) as IHa.
    repeat split; intros; (destruct fuel'; [lia|]); simpl; refines_tac.
Qed.

Lemma program_fuel fuel fuel' :
  fuel <= fuel' -> refines (program fuel) (program fuel').
Proof.
  intros Hle. destruct (statement_group_fuel fuel) as (IHsl & _).
  unfold program. refines_tac.
Qed.

(** With more fuel, [parse] gives the same outcome. *)
Lemma parse_fuel fuel fuel' :
  fuel <= fuel' -> refines (parse fuel) (parse fuel').
Proof.
  intros Hle. pose proof (program_fuel fuel) as IHp.
  unfold parse. refines_tac.
Qed.

(** *** Progress: what each loop iteration and each recursive call consumes *)

Ltac invert_bind H :=
  let a := fresh "a" in
  let s1 := fresh "s" in
  let H1 := fresh "H" in
  apply bind_Ok_inv in H; destruct H as (a & s1 & H1 & H).

Lemma match_token_current k l s e :
  current_token s = Some (k, l) ->
  match_token e s = Ok (String.eqb k e) s.
Proof. intros C. unfold match_token. rewrite C. reflexivity. Qed.

Lemma current_lexeme_current k l s :
  current_token s = Some (k, l) -> current_lexeme s = Ok l s.
Proof. intros C. unfold current_lexeme. rewrite C. reflexivity. Qed.

Lemma current_kind_current k l s :
  current_token s = Some (k, l) -> current_kind s = Ok k s.
Proof. intros C. unfold current_kind. rewrite C. reflexivity. Qed.

Lemma found_current_current k l s :
  current_token s = Some (k, l) ->
  found_current s = Ok (k ++ ": " ++ l)%string s.
Proof.
  intros C. unfold found_current, bind.
  rewrite (current_kind_current _ _ _ C), (current_lexeme_current _ _ _ C).
  reflexivity.
Qed.

(** [skip_whitespace] either leaves the state alone or uses tokens up. *)
Lemma skip_whitespace_progress fuel s u s' :
  skip_whitespace fuel s = Ok u s' -> s' = s \/ remaining s' < remaining s.
Proof.
  destruct fuel as [|f]; simpl; [discriminate|]. intros H.
  invert_bind H. apply match_token_true in H0. destruct H0 as [-> Hb].
  destruct a.
  - destruct (Hb eq_refl) as [l C]. invert_bind H. destruct a.
    apply consume_token_progress in H0; [|congruence].
    apply (monotone_Ok _ _ _ _ (monotone_skip_whitespace f)) in H.
    apply ext_remaining in H. right. lia.
  - inversion H. auto.
Qed.

(** A statement that starts at an identifier consumes it. *)
Lemma assignment_statement_progress fuel s l r s' :
  current_token s = Some ("IDENTIFIER", l)%string ->
  assignment_statement fuel s = Ok r s' ->
  remaining s' < remaining s.
Proof.
  intros C H. destruct fuel as [|f]; simpl in H; [discriminate|].
  unfold bind at 1 in H. rewrite (match_token_current _ _ _ _ C) in H.
  simpl in H. unfold bind at 1 in H.
  rewrite (current_lexeme_current _ _ _ C) in H.
  invert_bind H. destruct a.
  apply consume_token_progress in H0; [|congruence].
  apply monotone_Ok in H; [|monotone_tac].
  apply ext_remaining in H. lia.
Qed.

Section KeywordProgress.

Variable fuel : nat.
Variable s s' : Parser.
Variable l : string.
Variable r : option Node.

Lemma conditional_statement_progress :
  current_token s = Some ("CONDITIONAL_KEYWORD", l)%string ->
  conditional_statement fuel s = Ok r s' ->
  remaining s' < remaining s.
Proof.
  intros C H. destruct fuel as [|f]; simpl in H; [discriminate|].
  invert_bind H. destruct (skip_whitespace_progress _ _ _ _ H0) as [->|P].
  - unfold bind at 1 in H. rewrite (match_token_current _ _ _ _ C) in H.
    simpl in H. unfold bind at 1 in H.
    rewrite (current_lexeme_current _ _ _ C) in H.
    invert_bind H. destruct a0.
    apply consume_token_progress in H1; [|congruence].
    apply monotone_Ok in H; [|monotone_tac].
    apply ext_remaining in H. lia.
  - apply monotone_Ok in H; [|monotone_tac].
    apply ext_remaining in H. lia.
Qed.

Lemma loop_statement_progress :
  current_token s = Some ("LOOP_KEYWORD", l)%string ->
  loop_statement fuel s = Ok r s' ->
  remaining s' < remaining s.
Proof.
  intros C H. destruct fuel as [|f]; simpl in H; [discriminate|].
  invert_bind H. destruct (skip_whitespace_progress _ _ _ _ H0) as [->|P].
  - unfold bind at 1 in H. rewrite (match_token_current _ _ _ _ C) in H.
    simpl in H. unfold bind at 1 in H.
    rewrite (current_lexeme_current _ _ _ C) in H.
    invert_bind H. destruct a0.
    apply consume_token_progress in H1; [|congruence].
    apply monotone_Ok in H; [|monotone_tac].
    apply ext_remaining in H. lia.
  - apply monotone_Ok in H; [|monotone_tac].
    apply ext_remaining in H. lia.
Qed.

End KeywordProgress.

(** Every call of [statement] on a current token consumes at least that
    token, so every iteration of the loop of [statement_list] does. *)
Lemma statement_progress fuel s r s' :
  current_token s <> None ->
  statement fuel s = Ok r s' ->
  remaining s' < remaining s.
Proof.
  intros C H. destruct (current_token s) as [[k l]|] eqn:E; [|contradiction].
  clear C. destruct fuel as [|f]; simpl in H; [discriminate|].
  invert_bind H. apply monotone_Ok in H; [|monotone_tac].
  apply ext_remaining in H.
  enough (remaining s0 < remaining s) by lia. clear H.
  unfold bind at 1 in H0. rewrite (match_token_current _ _ _ _ E) in H0.
  destruct (String.eqb_spec k "IDENTIFIER") as [->|_]; cbv beta iota in H0.
  { eapply assignment_statement_progress; eassumption. }
  unfold bind at 1 in H0. rewrite (match_token_current _ _ _ _ E) in H0.
  destruct (String.eqb_spec k "CONDITIONAL_KEYWORD") as [->|_];
    cbv beta iota in H0.
  { eapply conditional_statement_progress; eassumption. }
  unfold bind at 1 in H0. rewrite (match_token_current _ _ _ _ E) in H0.
  destruct (String.eqb_spec k "LOOP_KEYWORD") as [->|_]; cbv beta iota in H0.
  { eapply loop_statement_progress; eassumption. }
  unfold bind at 1 in H0. rewrite (found_current_current _ _ _ E) in H0.
  cbv beta iota in H0.
  invert_bind H0. unfold append_error in H. inversion H; subst; clear H.
  invert_bind H0. destruct a0.
  apply consume_token_progress in H; [|simpl; congruence].
  inversion H0; subst. unfold remaining in *. simpl in *. exact H.
Qed.

(** ** Termination *)

Create HintDb terminates.

Lemma ret_terminates {A} (a : A) s : ret a s <> OutOfFuel.
Proof. discriminate. Qed.

Lemma consume_token_terminates s : consume_token s <> OutOfFuel.
Proof.
  unfold consume_token.
  destruct (Nat.ltb (index s) (length (tokens s))); discriminate.
Qed.

Lemma consume_token_Ok s : exists s', consume_token s = Ok tt s'.
Proof.
  unfold consume_token.
  destruct (Nat.ltb (index s) (length (tokens s))); eauto.
Qed.

Lemma match_token_terminates k s : match_token k s <> OutOfFuel.
Proof.
  unfold match_token. destruct (current_token s) as [[? ?]|]; discriminate.
Qed.

Lemma current_kind_terminates s : current_kind s <> OutOfFuel.
Proof.
  unfold current_kind. destruct (current_token s) as [[? ?]|]; discriminate.
Qed.

Lemma current_lexeme_terminates s : current_lexeme s <> OutOfFuel.
Proof.
  unfold current_lexeme. destruct (current_token s) as [[? ?]|]; discriminate.
Qed.

Lemma found_current_terminates s : found_current s <> OutOfFuel.
Proof.
  unfold found_current, bind, current_kind.
  destruct (current_token s) as [[k l]|] eqn:E; [|discriminate].
  unfold current_lexeme. rewrite E. discriminate.
Qed.

Lemma append_error_terminates msg s : append_error msg s <> OutOfFuel.
Proof. discriminate. Qed.

Lemma get_current_terminates s : get_current s <> OutOfFuel.
Proof. discriminate. Qed.

Lemma expect_token_terminates k s : expect_token k s <> OutOfFuel.
Proof.
  unfold expect_token. apply bind_not_out_of_fuel.
  - apply match_token_terminates.
  - intros [|] s1 _; [apply consume_token_terminates|].
    apply bind_not_out_of_fuel; [apply found_current_terminates|].
    discriminate.
Qed.

Lemma newline_terminates s : newline s <> OutOfFuel.
Proof. apply expect_token_terminates. Qed.

Lemma indent_terminates s : indent s <> OutOfFuel.
Proof. apply expect_token_terminates. Qed.

Lemma logical_expression_terminates s : logical_expression s <> OutOfFuel.
Proof. discriminate. Qed.

#[local] Hint Resolve ret_terminates consume_token_terminates
  match_token_terminates current_kind_terminates current_lexeme_terminates
  found_current_terminates append_error_terminates get_current_terminates
  expect_token_terminates newline_terminates indent_terminates
  logical_expression_terminates : terminates.

Lemma current_lexeme_Ok s l s' :
  current_lexeme s = Ok l s' -> s' = s.
Proof.
  unfold current_lexeme. destruct (current_token s) as [[? ?]|];
    intros E; inversion E; reflexivity.
Qed.

Lemma get_current_Ok s c s' :
  get_current s = Ok c s' -> s' = s /\ c = current_token s.
Proof. unfold get_current. intros E. inversion E. auto. Qed.

(** Facts about an intermediate state are read off the step that led to it. *)
Ltac digest H :=
  lazymatch type of H with
  | match_token _ _ = Ok _ _ =>
      apply match_token_true in H; destruct H as [-> H]
  | current_lexeme _ = Ok _ _ =>
      apply current_lexeme_Ok in H; subst
  | get_current _ = Ok _ _ =>
      apply get_current_Ok in H; destruct H as [-> H]
  | consume_token ?s = Ok ?u ?s1 =>
      destruct u;
      first
        [ let P := fresh "P" in
          assert (P : remaining s1 < remaining s)
            by (apply consume_token_progress; [congruence | exact H]);
          clear H
        | apply (monotone_Ok _ _ _ _ monotone_consume_token) in H;
          apply ext_remaining in H ]
  | statement _ ?s = Ok _ ?s1 =>
      first
        [ let P := fresh "P" in
          assert (P : remaining s1 < remaining s)
            by (eapply statement_progress; [ | exact H ]; congruence);
          clear H
        | apply (monotone_Ok _ _ _ _ (monotone_statement _)) in H;
          apply ext_remaining in H ]
  | _ = Ok _ _ =>
      apply monotone_Ok in H;
      [ apply ext_remaining in H | solve [ monotone_tac ] ]
  end.

Ltac terminates_step :=
  lazymatch goal with
  | |- bind _ _ _ <> OutOfFuel =>
      let H := fresh "H" in
      apply bind_not_out_of_fuel; [ | intros ? ? H; digest H ]
  | |- (if ?b then _ else _) _ <> OutOfFuel =>
      lazymatch type of b with
      | bool =>
          destruct b;
          [ match goal with
            | Hb : true = true -> _ |- _ =>
                destruct (Hb eq_refl) as [? ?]; clear Hb
            end
          | match goal with
            | Hb : false = true -> _ |- _ => clear Hb
            end ]
      | _ => destruct b
      end
  | |- (match ?x with Some _ => _ | None => _ end) _ <> OutOfFuel =>
      destruct x
  | |- _ <> OutOfFuel =>
      first [ solve [ auto with terminates ]
            | match goal with
              | IH : forall s, _ -> ?g _ s <> OutOfFuel |- ?g _ _ <> OutOfFuel =>
                  apply IH; lia
              | IH : forall n s, _ -> ?g _ n s <> OutOfFuel
                |- ?g _ _ _ <> OutOfFuel => apply IH; lia
              end ]
  end.

Ltac terminates_tac := cbv zeta; repeat terminates_step.

Lemma skip_whitespace_terminates fuel :
  forall s, remaining s < fuel -> skip_whitespace fuel s <> OutOfFuel.
Proof.
  induction fuel as [|f IH]; intros s Hs; [lia|].
  simpl. terminates_tac.
Qed.

Lemma expression_group_terminates fuel :
  (forall s, 5 * remaining s + 4 <= fuel -> expression fuel s <> OutOfFuel) /\
  (forall n s, 5 * remaining s + 1 <= fuel ->
     expression_loop fuel n s <> OutOfFuel) /\
  (forall s, 5 * remaining s + 3 <= fuel -> term fuel s <> OutOfFuel) /\
  (forall n s, 5 * remaining s + 1 <= fuel ->
     term_loop fuel n s <> OutOfFuel) /\
  (forall s, 5 * remaining s + 2 <= fuel -> factor fuel s <> OutOfFuel).
Proof.
  induction fuel as [|f (IHe & IHel & IHt & IHtl & IHf)].
  - repeat split; intros; lia.
  - pose proof (skip_whitespace_terminates f) as IHw.
    repeat split; intros; simpl; terminates_tac.
Qed.

Lemma assignment_statement_terminates fuel s :
  5 * remaining s + 1 <= fuel -> assignment_statement fuel s <> OutOfFuel.
Proof.
  intros Hs. destruct fuel as [|f]; [lia|].
  pose proof (skip_whitespace_terminates f) as IHw.
  destruct (expression_group_terminates f) as (IHe & _).
  simpl. terminates_tac.
Qed.

Lemma statement_group_terminates fuel :
  (forall s, 5 * remaining s + 5 <= fuel ->
     statement_list fuel s <> OutOfFuel) /\
  (forall n s, 5 * remaining s + 4 <= fuel ->
     statement_list_loop fuel n s <> OutOfFuel) /\
  (forall s, 5 * remaining s + 3 <= fuel -> statement fuel s <> OutOfFuel) /\
  (forall s, 5 * remaining s + 2 <= fuel ->
     conditional_statement fuel s <> OutOfFuel) /\
  (forall s, 5 * remaining s + 2 <= fuel ->
     loop_statement fuel s <> OutOfFuel) /\
  (forall s, 5 * remaining s + 6 <= fuel -> block fuel s <> OutOfFuel).
Proof.
  induction fuel as [|f (IHsl & IHsll & IHst & IHc & IHl & IHb)].
  - repeat split; intros; lia.
  - pose proof (skip_whitespace_terminates f) as IHw.
    pose proof (assignment_statement_terminates f) as IHa.
    repeat split; intros; simpl; terminates_tac.
Qed.

Lemma program_terminates fuel s :
  5 * remaining s + 5 <= fuel -> program fuel s <> OutOfFuel.
Proof.
  intros Hs. destruct (statement_group_terminates fuel) as (IHsl & _).
  unfold program. terminates_tac.
  unfold bind, append_error. discriminate.
Qed.

Lemma remaining_init_consumed toks s :
  consume_token (init toks) = Ok tt s -> remaining s = length toks.
Proof.
  intros H. rewrite (remaining_consume_token _ _ H). simpl. lia.
Qed.

Lemma operator_then_consumes {A} (m : M A) s :
  monotone m -> current_token s <> None -> consumes (consume_token ;; m) s.
Proof.
  intros Hm C r s' H. invert_bind H. destruct a.
  apply consume_token_progress in H0; [|exact C].
  apply (monotone_Ok _ _ _ _ Hm) in H. apply ext_remaining in H. lia.
Qed.

(** C9. For every finite token sequence [parse] terminates: fuel linear in
    the number of tokens is enough for it to end, normally or by an
    exception, and more fuel does not change the outcome.  The reason is
    stated with it: an iteration of the loop of
    [statement_list] (a call of [statement] on a current token) consumes at
    least one token, an iteration of the loops of [expression] and [term]
    consumes at least the operator, and [factor] enters [expression] only
    after consuming the opening parenthesis, so the recursion is bounded by
    the tokens that remain. *)
Theorem parse_terminates (toks : list Token) (fuel : nat) :
  5 * length toks + 5 <= fuel ->
  parse fuel (init toks) <> OutOfFuel /\
  (forall fuel', fuel <= fuel' ->
     parse fuel' (init toks) = parse fuel (init toks)) /\
  (forall f s, current_token s <> None -> consumes (statement f) s) /\
  (forall f s l, current_token s = Some ("ARITHMETIC_OPERATOR", l)%string ->
     consumes (consume_token ;; term f) s) /\
  (forall f s l, current_token s = Some ("ARITHMETIC_OPERATOR", l)%string ->
     consumes (consume_token ;; factor f) s) /\
  (forall s l, current_token s = Some ("OPENING_PARENTHESIS", l)%string ->
     consumes consume_token s).
Proof.
  intros Hfuel.
  assert (T : parse fuel (init toks) <> OutOfFuel).
  { unfold parse. apply bind_not_out_of_fuel.
    - apply consume_token_terminates.
    - intros [] s1 H1. apply remaining_init_consumed in H1.
      apply bind_not_out_of_fuel.
      + apply program_terminates. lia.
      + intros t s2 _. unfold bind, get_errors.
        destruct (errors s2); discriminate. }
  repeat split.
  - exact T.
  - intros fuel' L. apply (parse_fuel fuel fuel' L). exact T.
  - intros f s C r s'. apply statement_progress. exact C.
  - intros f s l C. apply operator_then_consumes;
      [apply monotone_term | congruence].
  - intros f s l C. apply operator_then_consumes;
      [apply monotone_factor | congruence].
  - intros s l C [] s' H. apply consume_token_progress; [congruence | exact H].
Qed.

Lemma parse_terminates_witness :
  5 * length [("NUMBER", "1"); ("NEWLINE", "n")]%string + 5 <= 15 /\
  parse 15 (init [("NUMBER", "1"); ("NEWLINE", "n")]%string) <> OutOfFuel.
Proof.
  split.
  - simpl. lia.
  - apply (parse_terminates [("NUMBER", "1"); ("NEWLINE", "n")]%string 15).
    simpl. lia.
Defined.

(** ** Cursor and error log *)

Lemma monotone_cursor_and_log {A} (m : M A) :
  monotone m -> cursor_and_log_monotone m.
Proof.
  intros H s. specialize (H s).
  destruct (m s) as [a s'|e s'|]; auto;
    destruct H as [_ I _ (l & E & _)]; eauto.
Qed.

(** C7. For every parser state and every operation of the parser
    ([consume_token], [expect_token] and its two uses, [skip_whitespace] and
    every grammar routine up to [parse]), the index never decreases and the
    error log only grows by appending at its end, whether the operation
    returns or raises. *)
Theorem cursor_never_rewinds_log_only_grows (fuel : nat) (k : string) (n : Node) :
  cursor_and_log_monotone consume_token /\
  cursor_and_log_monotone (match_token k) /\
  cursor_and_log_monotone (expect_token k) /\
  cursor_and_log_monotone newline /\
  cursor_and_log_monotone indent /\
  cursor_and_log_monotone (skip_whitespace fuel) /\
  cursor_and_log_monotone (parse fuel) /\
  cursor_and_log_monotone (program fuel) /\
  cursor_and_log_monotone (statement_list fuel) /\
  cursor_and_log_monotone (statement_list_loop fuel n) /\
  cursor_and_log_monotone (statement fuel) /\
  cursor_and_log_monotone (assignment_statement fuel) /\
  cursor_and_log_monotone (conditional_statement fuel) /\
  cursor_and_log_monotone (loop_statement fuel) /\
  cursor_and_log_monotone (block fuel) /\
  cursor_and_log_monotone (expression fuel) /\
  cursor_and_log_monotone (expression_loop fuel n) /\
  cursor_and_log_monotone (term fuel) /\
  cursor_and_log_monotone (term_loop fuel n) /\
  cursor_and_log_monotone (factor fuel) /\
  cursor_and_log_monotone logical_expression.
Proof.
  repeat apply conj; apply monotone_cursor_and_log;
    first [ apply monotone_parse | auto with monotone ].
Qed.

(** ** [expect_token] *)

Lemma expect_token_match k l s :
  current_token s = Some (k, l) ->
  expect_token k s = consume_token s.
Proof.
  intros C. unfold expect_token, bind.
  rewrite (match_token_current _ _ _ _ C), String.eqb_refl. reflexivity.
Qed.

Lemma expect_token_mismatch k k' l s :
  current_token s = Some (k', l) -> k' <> k ->
  expect_token k s =
  Ok tt (mkParser (tokens s) (current_token s) (index s)
           (errors s ++
            [("Expected '" ++ k ++ "', found " ++ k' ++ ": " ++ l)%string])).
Proof.
  intros C N. unfold expect_token, bind.
  rewrite (match_token_current _ _ _ _ C).
  apply String.eqb_neq in N. rewrite N.
  rewrite (found_current_current _ _ _ C). reflexivity.
Qed.

Lemma expect_token_current k l e s :
  current_token s = Some (k, l) ->
  expect_token e s =
  if String.eqb k e then consume_token s
  else append_error ("Expected '" ++ e ++ "', found " ++ k ++ ": " ++ l)%string s.
Proof.
  intros C. unfold expect_token, bind.
  rewrite (match_token_current _ _ _ _ C).
  destruct (String.eqb k e); [reflexivity|].
  rewrite (found_current_current _ _ _ C). reflexivity.
Qed.

(** C3 (code bug). At end of input [expect_token] does not append a
    diagnostic mentioning the end of input: formatting the diagnostic
    subscripts [self.current_token], which is [None], and the [TypeError]
    leaves the method with the parser state unchanged. *)
Theorem expect_token_end_of_input_raises (k : string) (s : Parser) :
  current_token s = None ->
  expect_token k s = Raised TypeError s.
Proof.
  intros C. unfold expect_token, bind, match_token. rewrite C.
  unfold found_current, bind, current_kind. rewrite C. reflexivity.
Qed.

Lemma expect_token_end_of_input_raises_witness :
  current_token (mkParser [] None 0 []) = None /\
  expect_token "NEWLINE" (mkParser [] None 0 []) =
  Raised TypeError (mkParser [] None 0 []).
Proof.
  split.
  - reflexivity.
  - apply (expect_token_end_of_input_raises "NEWLINE" (mkParser [] None 0 [])).
    reflexivity.
Defined.

(** ** The state in which [parse] calls [program] *)

Lemma consume_token_init toks : consume_token (init toks) = Ok tt (started toks).
Proof. destruct toks; reflexivity. Qed.

(** ** [expression] and [term] *)

(** Outcomes other than running out of fuel are the same for every fuel. *)
Lemma fuel_independent {A} (g : nat -> M A) (f0 f : nat) s :
  (forall f1 f2, f1 <= f2 -> refines (g f1) (g f2)) ->
  g f0 s <> OutOfFuel -> g f s <> OutOfFuel -> g f s = g f0 s.
Proof.
  intros Hg H0 H. destruct (Nat.le_ge_cases f f0) as [L|L].
  - symmetry. apply (Hg f f0 L). exact H.
  - apply (Hg f0 f L). exact H0.
Qed.

Lemma expression_fuel f1 f2 :
  f1 <= f2 -> refines (expression f1) (expression f2).
Proof. intros L. apply expression_group_fuel. exact L. Qed.

Lemma factor_fuel f1 f2 : f1 <= f2 -> refines (factor f1) (factor f2).
Proof. intros L. apply expression_group_fuel. exact L. Qed.

Lemma statement_list_fuel f1 f2 :
  f1 <= f2 -> refines (statement_list f1) (statement_list f2).
Proof. intros L. apply statement_group_fuel. exact L. Qed.

Lemma conditional_statement_fuel f1 f2 :
  f1 <= f2 -> refines (conditional_statement f1) (conditional_statement f2).
Proof. intros L. apply statement_group_fuel. exact L. Qed.

Lemma expression_a_plus_1_times_2 fuel :
  expression (9 + fuel) (started a_plus_1_times_2) =
  Ok (Some a_plus_1_times_2_tree) (mkParser a_plus_1_times_2 None 5 []).
Proof. reflexivity. Qed.

(** C2, as the spec states it, fails: for the tokens of [a + 1 * 2] no
    amount of fuel lets [expression] return a node with three children. *)
Lemma expression_a_plus_1_times_2_not_three_children :
  ~ exists fuel t1 op t2 s',
      expression fuel (started a_plus_1_times_2) =
      Ok (Some (mkNode "expression" None [t1; op; t2])) s'.
Proof.
  intros (fuel & t1 & op & t2 & s' & H).
  pose proof (expression_a_plus_1_times_2 0) as E. change (9 + 0) with 9 in E.
  rewrite (fuel_independent expression 9 fuel) in H.
  - rewrite E in H. discriminate.
  - exact expression_fuel.
  - rewrite E. discriminate.
  - rewrite H. discriminate.
Qed.

(** C2 (amended). For the tokens of [a + 1 * 2] the node returned by
    [expression] has exactly one child, a [term] node, and that node has the
    five children identifier [a], operator [+], number [1], operator [*],
    number [2]: the loop of [term] takes every arithmetic operator, whatever
    its lexeme, and leaves none for the loop of [expression]. *)
Theorem expression_a_plus_1_times_2_shape (fuel : nat) :
  expression (9 + fuel) (started a_plus_1_times_2) =
  Ok (Some a_plus_1_times_2_tree) (mkParser a_plus_1_times_2 None 5 []) /\
  (exists t, children a_plus_1_times_2_tree = [t] /\
     name t = "term"%string /\
     children t =
       [mkNode "identifier" (Some "a") [];
        mkNode "arithmetic_operator" (Some "+") [];
        mkNode "number" (Some "1") [];
        mkNode "arithmetic_operator" (Some "*") [];
        mkNode "number" (Some "2") []]%string).
Proof.
  split.
  - apply expression_a_plus_1_times_2.
  - eexists. repeat split.
Qed.

(** After [term] has returned, the current token is never an arithmetic
    operator, so the loop of [expression] never runs. *)
Lemma term_loop_leaves_no_operator fuel :
  forall n s r s',
    term_loop fuel n s = Ok r s' ->
    match_token "ARITHMETIC_OPERATOR" s' = Ok false s'.
Proof.
  induction fuel as [|f IH]; intros n s r s' H; simpl in H; [discriminate|].
  invert_bind H. destruct a.
  - invert_bind H. invert_bind H. invert_bind H.
    destruct a1 as [fn|].
    + eapply IH. exact H.
    + invert_bind H. invert_bind H. eapply IH. exact H.
  - pose proof H0 as H1. apply match_token_true in H1. destruct H1 as [-> _].
    unfold ret in H. injection H as _ <-. exact H0.
Qed.

(** ** [conditional_statement] *)

Lemma skip_whitespace_not_whitespace fuel k l s :
  current_token s = Some (k, l) -> String.eqb k "WHITESPACE" = false ->
  skip_whitespace (S fuel) s = Ok tt s.
Proof.
  intros C N. simpl. unfold bind.
  rewrite (match_token_current _ _ _ _ C), N. reflexivity.
Qed.

Lemma logical_expression_absent s : logical_expression s = Ok None s.
Proof. reflexivity. Qed.

Lemma conditional_statement_at_keyword fuel s l :
  current_token s = Some ("CONDITIONAL_KEYWORD", l)%string ->
  exists s',
    consume_token s = Ok tt s' /\
    conditional_statement (2 + fuel) s =
    Ok (Some (mkNode "conditional_statement" (Some l) [])) s'.
Proof.
  intros C. destruct (consume_token_Ok s) as [s' E]. exists s'.
  split; [exact E|].
  change (2 + fuel) with (S (S fuel)).
  cbn [conditional_statement]. unfold bind at 1.
  rewrite (skip_whitespace_not_whitespace _ _ _ _ C eq_refl).
  unfold bind at 1. rewrite (match_token_current _ _ _ _ C).
  cbn [String.eqb Ascii.eqb Bool.eqb]. cbv beta iota.
  unfold bind at 1. rewrite (current_lexeme_current _ _ _ C).
  unfold bind at 1. rewrite E. reflexivity.
Qed.

(** C4, as the spec states it, fails: on the tokens of
    [if <logical> : NEWLINE INDENT x = 1 NEWLINE], [conditional_statement]
    returns a node, and for no fuel the absence signal. *)
Lemma conditional_statement_returns_a_node :
  conditional_statement 2 (started if_statement) =
  Ok (Some (mkNode "conditional_statement" (Some "if"%string) []))
     (mkParser if_statement (Some ("LOGICAL_EXPRESSION", "a > 1")%string) 2 [])
  /\ forall fuel s', conditional_statement fuel (started if_statement) <> Ok None s'.
Proof.
  assert (E : conditional_statement 2 (started if_statement) =
              Ok (Some (mkNode "conditional_statement" (Some "if"%string) []))
                 (mkParser if_statement
                    (Some ("LOGICAL_EXPRESSION", "a > 1")%string) 2 []))
    by reflexivity.
  split; [exact E|].
  intros fuel s' H.
  rewrite (fuel_independent conditional_statement 2 fuel) in H.
  - rewrite E in H. discriminate.
  - exact conditional_statement_fuel.
  - rewrite E. discriminate.
  - rewrite H. discriminate.
Qed.

(** C4 (amended). Whenever the current token is a [CONDITIONAL_KEYWORD],
    [conditional_statement] consumes that one token and returns a
    [conditional_statement] node that carries the lexeme of the keyword and
    has no children; [logical_expression] returns the absence signal, and
    neither routine appends a diagnostic. *)
Theorem conditional_statement_childless_node (fuel : nat) (s : Parser) (l : string) :
  current_token s = Some ("CONDITIONAL_KEYWORD", l)%string ->
  (forall s0, logical_expression s0 = Ok None s0) /\
  exists s',
    consume_token s = Ok tt s' /\
    conditional_statement (2 + fuel) s =
    Ok (Some (mkNode "conditional_statement" (Some l) [])) s' /\
    errors s' = errors s.
Proof.
  intros C. split; [exact logical_expression_absent|].
  destruct (conditional_statement_at_keyword fuel s l C) as (s' & E & H).
  exists s'. repeat split; try assumption.
  unfold consume_token in E.
  destruct (Nat.ltb (index s) (length (tokens s)));
    inversion E; reflexivity.
Qed.

Lemma conditional_statement_childless_node_witness :
  current_token (started if_statement) =
  Some ("CONDITIONAL_KEYWORD", "if")%string /\
  exists s',
    consume_token (started if_statement) = Ok tt s' /\
    conditional_statement 2 (started if_statement) =
    Ok (Some (mkNode "conditional_statement" (Some "if"%string) [])) s' /\
    errors s' = errors (started if_statement).
Proof.
  split.
  - reflexivity.
  - apply (conditional_statement_childless_node 0 (started if_statement) "if").
    reflexivity.
Defined.

(** ** [factor] and parentheses *)

Lemma expression_a_plus_1 fuel :
  expression (7 + fuel) (started a_plus_1) =
  Ok (Some a_plus_1_tree) (mkParser a_plus_1 None 3 []).
Proof. reflexivity. Qed.

(** For [( a + 1 )], [factor] returns the node of the inner expression; the
    parentheses leave no node. *)
Lemma factor_parenthesised fuel :
  factor (8 + fuel) (started parenthesised) =
  Ok (Some a_plus_1_tree) (mkParser parenthesised None 5 []).
Proof. reflexivity. Qed.

(** When a token other than the closing parenthesis follows, the diagnostic is
    appended and the node of the inner expression is still returned. *)
Lemma factor_unclosed_then_newline fuel :
  factor (8 + fuel) (started unclosed_then_newline) =
  Ok (Some a_plus_1_tree)
     (mkParser unclosed_then_newline None 5
        [("Expected 'CLOSING_PARENTHESIS', found NEWLINE: " ++ nl)%string]).
Proof. reflexivity. Qed.

(** C6 (code bug). For the tokens of [( a + 1], where the input ends at the
    place of the closing parenthesis, [factor] neither appends a diagnostic
    nor returns the node of the inner expression: [expect_token] raises
    [TypeError] and the node is lost. *)
Theorem factor_unclosed_raises (fuel : nat) :
  factor (8 + fuel) (started unclosed) =
  Raised TypeError (mkParser unclosed None 4 []).
Proof. reflexivity. Qed.

(** ** Unrecognised statements *)

Section Unrecognised.

Variables k l : string.
Hypothesis not_identifier : k <> "IDENTIFIER"%string.
Hypothesis not_conditional : k <> "CONDITIONAL_KEYWORD"%string.
Hypothesis not_loop : k <> "LOOP_KEYWORD"%string.

Lemma statement_unrecognised fuel s :
  current_token s = Some (k, l) ->
  statement (S fuel) s =
  (append_error (statement_type_message k l) ;; consume_token ;; newline ;; ret None) s.
Proof.
  intros C. cbn [statement]. unfold bind at 1 2.
  rewrite (match_token_current _ _ _ _ C).
  rewrite (proj2 (String.eqb_neq _ _) not_identifier). unfold bind at 1.
  rewrite (match_token_current _ _ _ _ C).
  rewrite (proj2 (String.eqb_neq _ _) not_conditional). unfold bind at 1.
  rewrite (match_token_current _ _ _ _ C).
  rewrite (proj2 (String.eqb_neq _ _) not_loop). unfold bind at 1.
  rewrite (found_current_current _ _ _ C).
  unfold bind, append_error.
  destruct (consume_token _) as [[] s1| |]; reflexivity.
Qed.

(** A token string of the single token [(k, l)]: the diagnostic is
    appended, the token is consumed, and the trailing [newline] check
    raises. *)
Lemma statement_list_single_unrecognised fuel :
  statement_list (3 + fuel) (started [(k, l)]) =
  Raised TypeError (mkParser [(k, l)] None 1 [statement_type_message k l]).
Proof.
  change (3 + fuel) with (S (S (S fuel))).
  cbn [statement_list statement_list_loop]. unfold bind at 1.
  cbn [get_current started nth_error current_token]. unfold bind at 1.
  rewrite statement_unrecognised by reflexivity.
  reflexivity.
Qed.

(** With a second token, [statement] returns the absence signal and the
    list is cut short with no children. *)
Lemma statement_list_unrecognised_first fuel kt lt rest :
  exists s',
    statement_list (3 + fuel) (started ((k, l) :: (kt, lt) :: rest)) =
    Ok (Some (mkNode "statement_list" None [])) s' /\
    errors s' =
      statement_type_message k l ::
      (if String.eqb kt "NEWLINE" then []
       else [("Expected 'NEWLINE', found " ++ kt ++ ": " ++ lt)%string]).
Proof.
  change (3 + fuel) with (S (S (S fuel))).
  cbn [statement_list statement_list_loop]. unfold bind at 1.
  cbn [get_current started nth_error current_token]. unfold bind at 1.
  rewrite statement_unrecognised by reflexivity.
  unfold bind at 1. unfold append_error at 1.
  unfold bind at 1. unfold consume_token at 1.
  cbn [started tokens index errors current_token length Nat.ltb Nat.leb
       nth_error app].
  unfold bind at 1. unfold newline.
  rewrite (expect_token_current kt lt) by reflexivity.
  destruct (String.eqb kt "NEWLINE").
  - destruct rest; eexists; split; reflexivity.
  - eexists; split; reflexivity.
Qed.

End Unrecognised.

(** With at least two tokens, the first of them starting no statement,
    [program] returns a tree whose [statement_list] has no children, and
    exactly one diagnostic of the log begins [Expected a statement type]. *)
Lemma program_unrecognised_first k l kt lt rest fuel :
  k <> "IDENTIFIER"%string -> k <> "CONDITIONAL_KEYWORD"%string ->
  k <> "LOOP_KEYWORD"%string ->
  exists s',
    program (3 + fuel) (started ((k, l) :: (kt, lt) :: rest)) =
    Ok (mkNode "program" None [mkNode "statement_list" None []]) s' /\
    length (filter statement_type_diagnostic (errors s')) = 1.
Proof.
  intros N1 N2 N3.
  destruct (statement_list_unrecognised_first k l N1 N2 N3 fuel kt lt rest)
    as (s' & E & L).
  exists s'. split.
  - unfold program, bind. rewrite E. reflexivity.
  - rewrite L. destruct (String.eqb kt "NEWLINE"); reflexivity.
Qed.

(** C5 (code bug). On a token string of one token that starts no statement,
    the diagnostic [Expected a statement type] is appended, and then
    [newline] reaches [expect_token] at end of input: [parse] raises
    [TypeError] and no [statement_list] node is returned at all. *)
Theorem parse_single_unrecognised_raises (k l : string) (fuel : nat) :
  k <> "IDENTIFIER"%string -> k <> "CONDITIONAL_KEYWORD"%string ->
  k <> "LOOP_KEYWORD"%string ->
  parse (3 + fuel) (init [(k, l)]) =
  Raised TypeError
    (mkParser [(k, l)] None 1
       [("Expected a statement type, found " ++ k ++ ": " ++ l)%string]).
Proof.
  intros N1 N2 N3. unfold parse, bind. rewrite consume_token_init.
  unfold program, bind.
  rewrite (statement_list_single_unrecognised k l N1 N2 N3 fuel).
  reflexivity.
Qed.

Lemma parse_single_unrecognised_raises_witness :
  parse 3 (init [("NUMBER", "1")]%string) =
  Raised TypeError
    (mkParser [("NUMBER", "1")]%string None 1
       ["Expected a statement type, found NUMBER: 1"%string]).
Proof.
  apply (parse_single_unrecognised_raises "NUMBER" "1" 0); discriminate.
Defined.

(** ** [statement_list] and the error branch of [program] *)

(** With enough fuel [statement_list] ends in one of two ways: it returns a
    node, or an exception passes through it.  It never returns [None]. *)
Lemma statement_list_node_or_exception fuel s :
  5 * remaining s + 5 <= fuel ->
  (exists n s', statement_list fuel s = Ok (Some n) s') \/
  (exists e s', statement_list fuel s = Raised e s').
Proof.
  intros Hs. destruct (statement_group_terminates fuel) as (T & _).
  specialize (T s Hs).
  destruct (statement_list fuel s) as [r s'|e s'|] eqn:E.
  - destruct (statement_list_returns_node _ _ _ _ E) as [n ->]. left. eauto.
  - right. eauto.
  - contradiction.
Qed.

(** [program] never appends the diagnostic of its error branch. *)
Lemma program_error_branch_dead fuel s :
  match program fuel s with
  | Ok _ s' | Raised _ s' =>
      exists l, errors s' = errors s ++ l /\
                Forall (fun e => statement_list_diagnostic e = false) l
  | OutOfFuel => True
  end.
Proof.
  pose proof (monotone_program fuel s) as H.
  destruct (program fuel s); auto; apply (ext_errors _ _ H).
Qed.

(** C8 (code bug). On the token string of the single token [NUMBER 1],
    [statement_list] does not return a node: the [TypeError] raised by
    [expect_token] at end of input passes through [statement] and
    [statement_list]. *)
Theorem statement_list_raises_on_lone_number (fuel : nat) :
  statement_list (3 + fuel) (started [("NUMBER", "1")]%string) =
  Raised TypeError
    (mkParser [("NUMBER", "1")]%string None 1
       ["Expected a statement type, found NUMBER: 1"%string]).
Proof.
  apply (statement_list_single_unrecognised "NUMBER" "1"); discriminate.
Qed.

(** ** [assignment_statement] *)

(** C10. For every token sequence beginning IDENTIFIER, ASSIGNMENT_OPERATOR,
    [t], with the cursor on the identifier, [assignment_statement] behaves as
    the rest of its body from the second [consume_token] on, run in the
    state whose current token is [t] and with an [assignment_operator] node
    that already carries the lexeme of [t]: [expect_token] has advanced past
    the operator when the node value is read, and [t] is consumed before
    [expression] is invoked (that [consume_token] moves the cursor from [t]
    to the token after it, if any).  In particular every node it returns has
    the [assignment_operator] node with the lexeme of [t] as its second
    child. *)
Theorem assignment_operator_carries_next_lexeme
    (fuel : nat) (x op : string) (t : Token) (rest : list Token)
    (errs : list string) :
  let toks := (("IDENTIFIER", x) :: ("ASSIGNMENT_OPERATOR", op) :: t :: rest)%string in
  let identifier_node := mkNode "identifier" (Some x) [] in
  let assignment_operator_node := mkNode "assignment_operator" (Some (snd t)) [] in
  assignment_statement (2 + fuel)
    (mkParser toks (Some ("IDENTIFIER", x)%string) 1 errs) =
  (consume_token ;;
   skip_whitespace (S fuel) ;;
   expression_node <- expression (S fuel) ;;
   match expression_node with
   | Some e =>
       ret (Some (mkNode "assignment_statement" None
                    [identifier_node; assignment_operator_node; e]))
   | None =>
       found <- found_current ;;
       append_error ("Expected an expression, found " ++ found)%string ;;
       ret None
   end) (mkParser toks (Some t) 3 errs)
  /\
  consume_token (mkParser toks (Some t) 3 errs) =
  Ok tt (mkParser toks (nth_error rest 0)
           (match rest with [] => 3 | _ :: _ => 4 end) errs)
  /\
  forall n s',
    assignment_statement (2 + fuel)
      (mkParser toks (Some ("IDENTIFIER", x)%string) 1 errs) = Ok (Some n) s' ->
    nth_error (children n) 1 = Some assignment_operator_node.
Proof.
  intros toks identifier_node assignment_operator_node.
  assert (E : assignment_statement (2 + fuel)
                (mkParser toks (Some ("IDENTIFIER", x)%string) 1 errs) =
              (consume_token ;;
               skip_whitespace (S fuel) ;;
               expression_node <- expression (S fuel) ;;
               match expression_node with
               | Some e =>
                   ret (Some (mkNode "assignment_statement" None
                                [identifier_node; assignment_operator_node; e]))
               | None =>
                   found <- found_current ;;
                   append_error ("Expected an expression, found " ++ found)%string ;;
                   ret None
               end) (mkParser toks (Some t) 3 errs)).
  { destruct t as [kt lt]. reflexivity. }
  split; [exact E|].
  split; [destruct rest; reflexivity|].
  intros n s' H. rewrite E in H.
  invert_bind H. invert_bind H. invert_bind H.
  destruct a1 as [e|].
  - unfold ret in H. injection H as <- _. reflexivity.
  - invert_bind H. invert_bind H. discriminate.
Qed.

(** On [x = 1 2] the operator node carries [1] and the expression is [2]. *)
Example assignment_statement_x_1_2 :
  assignment_statement 7
    (started [("IDENTIFIER", "x"); ("ASSIGNMENT_OPERATOR", "=");
              ("NUMBER", "1"); ("NUMBER", "2"); ("NEWLINE", nl)]%string) =
  Ok (Some (mkNode "assignment_statement" None
              [mkNode "identifier" (Some "x") [];
               mkNode "assignment_operator" (Some "1") [];
               mkNode "expression" None
                 [mkNode "term" None [mkNode "number" (Some "2") []]]]))%string
     (mkParser [("IDENTIFIER", "x"); ("ASSIGNMENT_OPERATOR", "=");
                ("NUMBER", "1"); ("NUMBER", "2"); ("NEWLINE", nl)]%string
        (Some ("NEWLINE"%string, nl)) 5 []).
Proof. reflexivity. Qed.

(** ** The routines do not look at tokens already consumed *)

Lemma shift_invariant_ret {A} (a : A) : shift_invariant (ret a).
Proof. intros pre s s' H. simpl. auto. Qed.

Lemma shift_invariant_out_of_fuel {A} : shift_invariant (@out_of_fuel A).
Proof. intros pre s s' H. exact I. Qed.

Lemma shift_invariant_bind {A B} (m : M A) (k : A -> M B) :
  shift_invariant m -> (forall a, shift_invariant (k a)) ->
  shift_invariant (bind m k).
Proof.
  intros Hm Hk pre s s' H. unfold bind. specialize (Hm pre s s' H).
  destruct (m s) as [a s1|e s1|], (m s') as [a' s1'|e' s1'|];
    simpl in Hm; try contradiction; auto.
  destruct Hm as [<- Hs]. apply Hk. exact Hs.
Qed.

Lemma shift_invariant_current_kind : shift_invariant current_kind.
Proof.
  intros pre s s' H. unfold current_kind. rewrite (shifted_current _ _ _ H).
  destruct (current_token s) as [[k l]|]; simpl; auto.
Qed.

Lemma shift_invariant_current_lexeme : shift_invariant current_lexeme.
Proof.
  intros pre s s' H. unfold current_lexeme. rewrite (shifted_current _ _ _ H).
  destruct (current_token s) as [[k l]|]; simpl; auto.
Qed.

Lemma shift_invariant_get_current : shift_invariant get_current.
Proof.
  intros pre s s' H. unfold get_current. simpl.
  split; [symmetry; apply (shifted_current _ _ _ H) | exact H].
Qed.

Lemma shift_invariant_match_token k : shift_invariant (match_token k).
Proof.
  intros pre s s' H. unfold match_token. rewrite (shifted_current _ _ _ H).
  destruct (current_token s) as [[k' l]|]; simpl; auto.
Qed.

Lemma shift_invariant_append_error msg : shift_invariant (append_error msg).
Proof.
  intros pre s s' [T I C E]. unfold append_error. simpl.
  split; [reflexivity|]. split; simpl; congruence.
Qed.

Lemma shift_invariant_consume_token : shift_invariant consume_token.
Proof.
  intros pre s s' [T I C E]. unfold consume_token.
  rewrite T, I, E, length_app.
  destruct (Nat.ltb_spec (index s) (length (tokens s))) as [L|L];
    destruct (Nat.ltb_spec (length pre + index s)
                (length pre + length (tokens s))) as [L'|L']; try lia;
    simpl; (split; [reflexivity|]); split; simpl; auto.
  rewrite nth_error_app2 by lia. f_equal. lia.
Qed.

Create HintDb shift.

#[local] Hint Resolve shift_invariant_ret shift_invariant_out_of_fuel
  shift_invariant_current_kind shift_invariant_current_lexeme
  shift_invariant_get_current shift_invariant_match_token
  shift_invariant_append_error shift_invariant_consume_token : shift.

Ltac shift_step :=
  first
    [ assumption
    | solve [ auto with shift ]
    | apply shift_invariant_bind; [ | intros ? ]
    | match goal with
      | |- shift_invariant (if ?b then _ else _) => destruct b
      | |- shift_invariant (match ?x with Some _ => _ | None => _ end) =>
          destruct x
      end ].

Ltac shift_tac := cbv zeta; repeat shift_step.

Lemma shift_invariant_found_current : shift_invariant found_current.
Proof. unfold found_current. shift_tac. Qed.

#[local] Hint Resolve shift_invariant_found_current : shift.

Lemma shift_invariant_expect_token k : shift_invariant (expect_token k).
Proof. unfold expect_token. shift_tac. Qed.

Lemma shift_invariant_newline : shift_invariant newline.
Proof. apply shift_invariant_expect_token. Qed.

Lemma shift_invariant_indent : shift_invariant indent.
Proof. apply shift_invariant_expect_token. Qed.

Lemma shift_invariant_skip_whitespace fuel :
  shift_invariant (skip_whitespace fuel).
Proof. induction fuel as [|f IH]; simpl; shift_tac. Qed.

Lemma shift_invariant_logical_expression : shift_invariant logical_expression.
Proof. unfold logical_expression. shift_tac. Qed.

#[local] Hint Resolve shift_invariant_expect_token shift_invariant_newline
  shift_invariant_indent shift_invariant_skip_whitespace
  shift_invariant_logical_expression : shift.

Lemma shift_invariant_expression_group fuel :
  shift_invariant (expression fuel) /\
  (forall n, shift_invariant (expression_loop fuel n)) /\
  shift_invariant (term fuel) /\
  (forall n, shift_invariant (term_loop fuel n)) /\
  shift_invariant (factor fuel).
Proof.
  induction fuel as [|f (IHe & IHel & IHt & IHtl & IHf)].
  - repeat apply conj; intros; apply shift_invariant_out_of_fuel.
  - repeat apply conj; intros; simpl; shift_tac.
Qed.

Lemma shift_invariant_expression fuel : shift_invariant (expression fuel).
Proof. apply shift_invariant_expression_group. Qed.

#[local] Hint Resolve shift_invariant_expression : shift.

Lemma shift_invariant_assignment_statement fuel :
  shift_invariant (assignment_statement fuel).
Proof. destruct fuel; simpl; shift_tac. Qed.

#[local] Hint Resolve shift_invariant_assignment_statement : shift.

Lemma shift_invariant_statement_group fuel :
  shift_invariant (statement_list fuel) /\
  (forall n, shift_invariant (statement_list_loop fuel n)) /\
  shift_invariant (statement fuel) /\
  shift_invariant (conditional_statement fuel) /\
  shift_invariant (loop_statement fuel) /\
  shift_invariant (block fuel).
Proof.
  induction fuel as [|f (IHsl & IHsll & IHst & IHc & IHl & IHb)].
  - repeat apply conj; intros; apply shift_invariant_out_of_fuel.
  - repeat apply conj; intros; simpl; shift_tac.
Qed.

Lemma shift_invariant_statement_list_loop fuel n :
  shift_invariant (statement_list_loop fuel n).
Proof. apply shift_invariant_statement_group. Qed.

(** ** Well-formed assignments *)

(** With no line at all the claim holds. *)
Lemma parse_no_assignment fuel :
  parse (2 + fuel) (init (assignment_lines [])) =
  Ok (Some (mkNode "program" None [mkNode "statement_list" None []]))
     (mkParser [] None 0 []).
Proof. reflexivity. Qed.

(** On the last line the parser runs off the end of the input. *)
Lemma statement_list_loop_last_line fuel n x v errs :
  statement_list_loop (8 + fuel) n
    (mkParser (assignment_line x v) (Some ("IDENTIFIER", x)%string) 1 errs) =
  Raised TypeError
    (mkParser (assignment_line x v) None 4
       (errs ++ ["Invalid token NEWLINE"%string])).
Proof. reflexivity. Qed.

(** On a line that is followed by another one, the statement is accepted
    with three diagnostics, and the loop goes on from the next identifier. *)
Lemma statement_list_loop_next_line fuel n x v x' rest errs :
  let toks := assignment_line x v ++ ("IDENTIFIER"%string, x') :: rest in
  statement_list_loop (S (7 + fuel)) n
    (mkParser toks (Some ("IDENTIFIER", x)%string) 1 errs) =
  statement_list_loop (7 + fuel)
    (add_child n
       (mkNode "assignment_statement" None
          [mkNode "identifier" (Some x) [];
           mkNode "assignment_operator" (Some v) [];
           mkNode "expression" None [mkNode "term" None []]]))
    (mkParser toks (Some ("IDENTIFIER", x')%string) 5
       (errs ++ ["Invalid token NEWLINE"%string;
                 ("Expected a factor, found IDENTIFIER: " ++ x')%string;
                 ("Expected 'NEWLINE', found IDENTIFIER: " ++ x')%string])).
Proof.
  intros toks. subst toks.
  match goal with
  | |- context [errs ++ [?a; ?b; ?c]] =>
      replace (errs ++ [a; b; c]) with (((errs ++ [a]) ++ [b]) ++ [c])
        by (rewrite <- !app_assoc; reflexivity)
  end.
  reflexivity.
Qed.

Lemma statement_list_loop_assignments_raise lines :
  forall x v fuel n errs,
    length lines + 8 <= fuel ->
    exists s',
      statement_list_loop fuel n
        (mkParser (assignment_lines ((x, v) :: lines))
           (Some ("IDENTIFIER", x)%string) 1 errs) =
      Raised TypeError s'.
Proof.
  induction lines as [|[x' v'] ls IH]; intros x v fuel n errs Hfuel.
  - replace fuel with (8 + (fuel - 8)) by (simpl in Hfuel; lia).
    eexists. apply statement_list_loop_last_line.
  - destruct fuel as [|F]; [simpl in Hfuel; lia|].
    replace F with (7 + (F - 7)) by (simpl in Hfuel; lia).
    change (assignment_lines ((x, v) :: (x', v') :: ls)) with
      (assignment_line x v ++
       ("IDENTIFIER"%string, x') ::
       tl (assignment_lines ((x', v') :: ls))).
    rewrite statement_list_loop_next_line.
    set (n' := add_child n _).
    set (errs' := errs ++ _).
    destruct (IH x' v' (7 + (F - 7)) n' errs') as [s1 E];
      [simpl in Hfuel; lia|].
    assert (Sh : shifted (assignment_line x v)
                   (mkParser (assignment_lines ((x', v') :: ls))
                      (Some ("IDENTIFIER"%string, x')) 1 errs')
                   (mkParser
                      (assignment_line x v ++
                       ("IDENTIFIER"%string, x') ::
                       tl (assignment_lines ((x', v') :: ls)))
                      (Some ("IDENTIFIER"%string, x')) 5 errs'))
      by (split; reflexivity).
    pose proof (shift_invariant_statement_list_loop (7 + (F - 7)) n' _ _ _ Sh)
      as O.
    rewrite E in O.
    destruct (statement_list_loop (7 + (F - 7)) n'
                (mkParser (assignment_line x v ++ _) _ 5 errs'))
      as [a s2|e s2|]; simpl in O; try contradiction.
    destruct O as [<- _]. exists s2. reflexivity.
Qed.

(** The parse of a single well-formed line, in full. *)
Lemma parse_one_assignment x v fuel :
  parse (9 + fuel) (init (assignment_line x v)) =
  Raised TypeError
    (mkParser (assignment_line x v) None 4 ["Invalid token NEWLINE"%string]).
Proof. reflexivity. Qed.

(** C1 (code bug). For every n >= 1, on n well-formed lines
    [IDENTIFIER '=' NUMBER NEWLINE] [parse] returns no tree: it raises
    [TypeError].  [assignment_statement] reads the operator's value after
    [expect_token] has moved to the number and then consumes the number, so
    [expression] starts at the newline, which [factor] rejects and consumes;
    on the last line the input is then exhausted and the diagnostic of
    [term] cannot be formatted. *)
Theorem parse_assignments_raises
    (x v : string) (lines : list (string * string)) (fuel : nat) :
  length lines + 9 <= fuel ->
  exists s',
    parse fuel (init (assignment_lines ((x, v) :: lines))) =
    Raised TypeError s'.
Proof.
  intros Hfuel. destruct fuel as [|F]; [lia|].
  destruct (statement_list_loop_assignments_raise lines x v F
              (mkNode "statement_list" None []) [])
    as [s' E]; [lia|].
  exists s'. unfold parse, bind. rewrite consume_token_init.
  unfold program, bind. cbn [statement_list].
  change (started (assignment_lines ((x, v) :: lines))) with
    (mkParser (assignment_lines ((x, v) :: lines))
       (Some ("IDENTIFIER"%string, x)) 1 []).
  rewrite E. reflexivity.
Qed.

Lemma parse_assignments_raises_witness :
  length (@nil (string * string)) + 9 <= 9 /\
  exists s',
    parse 9 (init (assignment_lines [("x", "1")]%string)) =
    Raised TypeError s'.
Proof.
  split.
  - simpl. lia.
  - apply (parse_assignments_raises "x" "1" [] 9). simpl. lia.
Defined.

(** * Further properties of the code *)

(** ** Invariants of the two state-changing primitives *)

(** Only [consume_token] and [append_error] change the parser state, so a
    predicate they preserve is preserved by every routine. *)
Section Preservation.

Variable P : Parser -> Prop.
Hypothesis P_consume_token : preserves P consume_token.
Hypothesis P_append_error : forall msg, preserves P (append_error msg).

Lemma preserves_ret {A} (a : A) : preserves P (ret a).
Proof. intros s H. exact H. Qed.

Lemma preserves_out_of_fuel {A} : preserves P (@out_of_fuel A).
Proof. intros s H. exact I. Qed.

Lemma preserves_bind {A B} (m : M A) (k : A -> M B) :
  preserves P m -> (forall a, preserves P (k a)) -> preserves P (bind m k).
Proof.
  intros Hm Hk s H. unfold bind. specialize (Hm s H).
  destruct (m s) as [a s1| |]; auto. apply Hk. exact Hm.
Qed.

Lemma preserves_current_kind : preserves P current_kind.
Proof.
  intros s H. unfold current_kind.
  destruct (current_token s) as [[k l]|]; exact H.
Qed.

Lemma preserves_current_lexeme : preserves P current_lexeme.
Proof.
  intros s H. unfold current_lexeme.
  destruct (current_token s) as [[k l]|]; exact H.
Qed.

Lemma preserves_get_current : preserves P get_current.
Proof. intros s H. exact H. Qed.

Lemma preserves_get_errors : preserves P get_errors.
Proof. intros s H. exact H. Qed.

Lemma preserves_match_token k : preserves P (match_token k).
Proof.
  intros s H. unfold match_token.
  destruct (current_token s) as [[k' l]|]; exact H.
Qed.

Ltac preserves_step :=
  first
    [ assumption
    | match goal with
      | H : forall n, preserves P (?g _ n) |- preserves P (?g _ _) => apply H
      | H : forall k, preserves P (?g k) |- preserves P (?g _) => apply H
      end
    | apply preserves_ret
    | apply preserves_out_of_fuel
    | apply P_consume_token
    | apply P_append_error
    | apply preserves_match_token
    | apply preserves_current_kind
    | apply preserves_current_lexeme
    | apply preserves_get_current
    | apply preserves_get_errors
    | apply preserves_bind; [ | intros ? ]
    | match goal with
      | |- preserves P (if ?b then _ else _) => destruct b
      | |- preserves P (match ?x with Some _ => _ | None => _ end) =>
          destruct x
      | |- preserves P (match ?x with [] => _ | _ :: _ => _ end) =>
          destruct x
      end ].

Ltac preserves_tac := cbv zeta; repeat preserves_step.

Lemma preserves_found_current : preserves P found_current.
Proof. unfold found_current. preserves_tac. Qed.

Lemma preserves_expect_token k : preserves P (expect_token k).
Proof.
  pose proof preserves_found_current. unfold expect_token. preserves_tac.
Qed.

Lemma preserves_skip_whitespace fuel : preserves P (skip_whitespace fuel).
Proof. induction fuel as [|f IH]; simpl; preserves_tac. Qed.

Lemma preserves_expression_group fuel :
  preserves P (expression fuel) /\
  (forall n, preserves P (expression_loop fuel n)) /\
  preserves P (term fuel) /\
  (forall n, preserves P (term_loop fuel n)) /\
  preserves P (factor fuel).
Proof.
  pose proof preserves_found_current as Hf.
  pose proof preserves_expect_token as He.
  induction fuel as [|f (IHe & IHel & IHt & IHtl & IHf)].
  - repeat apply conj; intros; apply preserves_out_of_fuel.
  - pose proof (preserves_skip_whitespace f) as Hw.
    repeat apply conj; intros; simpl; unfold logical_expression;
      preserves_tac.
Qed.

Lemma preserves_assignment_statement fuel :
  preserves P (assignment_statement fuel).
Proof.
  pose proof preserves_found_current as Hf.
  pose proof preserves_expect_token as He.
  destruct fuel as [|f]; simpl; [apply preserves_out_of_fuel|].
  pose proof (preserves_skip_whitespace f) as Hw.
  destruct (preserves_expression_group f) as (Hx & _).
  preserves_tac.
Qed.

Lemma preserves_statement_group fuel :
  preserves P (statement_list fuel) /\
  (forall n, preserves P (statement_list_loop fuel n)) /\
  preserves P (statement fuel) /\
  preserves P (conditional_statement fuel) /\
  preserves P (loop_statement fuel) /\
  preserves P (block fuel).
Proof.
  pose proof preserves_found_current as Hf.
  pose proof preserves_expect_token as He.
  induction fuel as [|f (IHsl & IHsll & IHst & IHc & IHl & IHb)].
  - repeat apply conj; intros; apply preserves_out_of_fuel.
  - pose proof (preserves_skip_whitespace f) as Hw.
    pose proof (preserves_assignment_statement f) as Ha.
    repeat apply conj; intros; simpl;
      unfold logical_expression, newline, indent; preserves_tac.
Qed.

Lemma preserves_program fuel : preserves P (program fuel).
Proof.
  destruct (preserves_statement_group fuel) as (Hsl & _).
  unfold program. preserves_tac.
Qed.

Lemma preserves_parse fuel : preserves P (parse fuel).
Proof.
  pose proof (preserves_program fuel) as Hp.
  unfold parse. preserves_tac.
Qed.

End Preservation.

(** ** The cursor stays coherent *)

Lemma coherent_consume_token : preserves coherent consume_token.
Proof.
  intros s [L C]. unfold consume_token.
  destruct (Nat.ltb_spec (index s) (length (tokens s))) as [H|H];
    unfold coherent; simpl.
  - split; [lia|].
    destruct (nth_error (tokens s) (index s)) as [t|] eqn:N.
    + split; [lia|]. rewrite Nat.sub_0_r. exact N.
    + apply nth_error_None in N. lia.
  - split; lia.
Qed.

Lemma coherent_append_error msg : preserves coherent (append_error msg).
Proof. intros s H. exact H. Qed.

Lemma coherent_started toks : coherent (started toks).
Proof.
  destruct toks as [|t toks]; unfold coherent; simpl.
  - split; reflexivity.
  - repeat split; lia.
Qed.

(** X1. Every operation keeps the cursor coherent: the index never passes
    the end of the token string, the current token is the token just before
    the index, and there is no current token only when the index is at the
    end.  [parse] sets this up with its first [consume_token], so it holds
    in the state [parse] ends in, however it ends. *)
Theorem cursor_stays_coherent (fuel : nat) (k : string) (n : Node) :
  preserves coherent consume_token /\
  preserves coherent (expect_token k) /\
  preserves coherent (skip_whitespace fuel) /\
  preserves coherent (program fuel) /\
  preserves coherent (statement_list fuel) /\
  preserves coherent (statement fuel) /\
  preserves coherent (assignment_statement fuel) /\
  preserves coherent (conditional_statement fuel) /\
  preserves coherent (loop_statement fuel) /\
  preserves coherent (block fuel) /\
  preserves coherent (expression fuel) /\
  preserves coherent (term fuel) /\
  preserves coherent (factor fuel) /\
  forall toks,
    match parse fuel (init toks) with
    | Ok _ s' | Raised _ s' => coherent s'
    | OutOfFuel => True
    end.
Proof.
  pose proof coherent_consume_token as Hc.
  pose proof coherent_append_error as Ha.
  pose proof (preserves_statement_group coherent Hc Ha fuel)
    as (Hsl & _ & Hst & Hcs & Hls & Hb).
  pose proof (preserves_expression_group coherent Hc Ha fuel)
    as (He & _ & Ht & _ & Hf).
  repeat apply conj; try assumption.
  - apply preserves_expect_token; assumption.
  - apply preserves_skip_whitespace; assumption.
  - apply preserves_program; assumption.
  - apply preserves_assignment_statement; assumption.
  - intros toks. unfold parse, bind at 1. rewrite consume_token_init.
    pose proof (preserves_program coherent Hc Ha fuel) as Hp.
    assert (Hrest : preserves coherent
              (parse_tree <- program fuel ;;
               errs <- get_errors ;;
               match errs with
               | [] => ret (Some parse_tree)
               | _ :: _ => ret None
               end)).
    { apply preserves_bind; [exact Hp|]. intros t.
      apply preserves_bind; [apply preserves_get_errors|].
      intros [|e es]; apply preserves_ret. }
    apply (Hrest (started toks)). apply coherent_started.
Qed.

(** ** The token string is read-only *)

(** X2. No operation changes the token string: in whatever state an
    operation ends, normally or by an exception, [tokens] is what it was. *)
Theorem tokens_never_change (fuel : nat) (k : string) :
  forall toks : list Token,
    let P := fun s => tokens s = toks in
    preserves P consume_token /\
    preserves P (expect_token k) /\
    preserves P (skip_whitespace fuel) /\
    preserves P (parse fuel) /\
    preserves P (program fuel) /\
    preserves P (statement_list fuel) /\
    preserves P (statement fuel) /\
    preserves P (assignment_statement fuel) /\
    preserves P (conditional_statement fuel) /\
    preserves P (loop_statement fuel) /\
    preserves P (block fuel) /\
    preserves P (expression fuel) /\
    preserves P (term fuel) /\
    preserves P (factor fuel).
Proof.
  intros toks P.
  assert (Hc : preserves P consume_token).
  { intros s H. unfold consume_token.
    destruct (Nat.ltb (index s) (length (tokens s))); exact H. }
  assert (Ha : forall msg, preserves P (append_error msg)).
  { intros msg s H. exact H. }
  pose proof (preserves_statement_group P Hc Ha fuel)
    as (Hsl & _ & Hst & Hcs & Hls & Hb).
  pose proof (preserves_expression_group P Hc Ha fuel)
    as (He & _ & Ht & _ & Hf).
  repeat apply conj; try assumption.
  - apply preserves_expect_token; assumption.
  - apply preserves_skip_whitespace; assumption.
  - apply preserves_parse; assumption.
  - apply preserves_program; assumption.
  - apply preserves_assignment_statement; assumption.
Qed.

(** ** Only the tokens from the cursor on matter *)

Lemma shift_invariant_program fuel : shift_invariant (program fuel).
Proof.
  destruct (shift_invariant_statement_group fuel) as (Hsl & _).
  unfold program.
  apply shift_invariant_bind; [exact Hsl|]. intros [sl|]; [shift_tac|].
  apply shift_invariant_bind; [apply shift_invariant_get_current|].
  intros cur. shift_tac.
Qed.

(** X3. The grammar routines never look back: on two states with the same
    current token and error log whose token strings agree from the index on
    (one has extra tokens in front), a routine gives the same result, by
    return or by exception, and ends in states that correspond in the same
    way. *)
Theorem routines_ignore_consumed_tokens (fuel : nat) :
  shift_invariant (program fuel) /\
  shift_invariant (statement_list fuel) /\
  shift_invariant (statement fuel) /\
  shift_invariant (assignment_statement fuel) /\
  shift_invariant (conditional_statement fuel) /\
  shift_invariant (loop_statement fuel) /\
  shift_invariant (block fuel) /\
  shift_invariant (expression fuel) /\
  shift_invariant (term fuel) /\
  shift_invariant (factor fuel).
Proof.
  pose proof (shift_invariant_statement_group fuel)
    as (Hsl & _ & Hst & Hcs & Hls & Hb).
  pose proof (shift_invariant_expression_group fuel)
    as (He & _ & Ht & _ & Hf).
  repeat apply conj; try assumption.
  - apply shift_invariant_program.
  - apply shift_invariant_assignment_statement.
Qed.

(** ** [skip_whitespace] *)

Lemma consume_token_keeps s u s' :
  consume_token s = Ok u s' ->
  errors s' = errors s /\ tokens s' = tokens s /\ index s <= index s'.
Proof.
  unfold consume_token.
  destruct (Nat.ltb (index s) (length (tokens s)));
    intros E; inversion E; simpl; auto.
Qed.

Lemma skip_whitespace_total (fuel : nat) :
  forall s,
    remaining s < fuel ->
    exists s',
      skip_whitespace fuel s = Ok tt s' /\
      match_token "WHITESPACE" s' = Ok false s' /\
      errors s' = errors s /\ tokens s' = tokens s /\ index s <= index s'.
Proof.
  induction fuel as [|f IH]; intros s Hs; [lia|].
  simpl. unfold bind at 1.
  destruct (match_token "WHITESPACE" s) as [b s0| |] eqn:M;
    try (unfold match_token in M;
         destruct (current_token s) as [[? ?]|]; discriminate).
  pose proof M as M'. apply match_token_true in M'. destruct M' as [-> Hb].
  destruct b.
  - destruct (Hb eq_refl) as [l C].
    destruct (consume_token_Ok s) as [s1 E]. unfold bind. rewrite E.
    pose proof (consume_token_progress s s1) as Pg.
    destruct (IH s1) as (s' & R & W & Er & Tk & Ix);
      [assert (remaining s1 < remaining s) by (apply Pg; congruence); lia|].
    destruct (consume_token_keeps _ _ _ E) as (Er1 & Tk1 & Ix1).
    exists s'. repeat split; try congruence; lia.
  - exists s. repeat split; auto.
Qed.

(** X4. With fuel above the number of remaining tokens, [skip_whitespace]
    returns, never raises and never logs; it leaves the token string alone,
    moves the index forward only, and stops on a state whose current token
    is not a WHITESPACE token. *)
Theorem skip_whitespace_stops_at_non_whitespace (fuel : nat) :
  forall s,
    remaining s < fuel ->
    exists s',
      skip_whitespace fuel s = Ok tt s' /\
      match_token "WHITESPACE" s' = Ok false s' /\
      errors s' = errors s /\ tokens s' = tokens s /\ index s <= index s'.
Proof. exact (skip_whitespace_total fuel). Qed.

Lemma skip_whitespace_stops_at_non_whitespace_witness :
  remaining (started [("WHITESPACE", " "); ("NUMBER", "1")]%string) < 3 /\
  exists s',
    skip_whitespace 3 (started [("WHITESPACE", " "); ("NUMBER", "1")]%string)
    = Ok tt s' /\
    match_token "WHITESPACE" s' = Ok false s' /\
    errors s' = [] /\
    tokens s' = [("WHITESPACE", " "); ("NUMBER", "1")]%string /\
    1 <= index s'.
Proof.
  split.
  - unfold remaining. simpl. lia.
  - apply (skip_whitespace_stops_at_non_whitespace 3
             (started [("WHITESPACE", " "); ("NUMBER", "1")]%string)).
    unfold remaining. simpl. lia.
Defined.

(** ** Expressions at end of input *)

(** X5. When no token is current, [factor], [term] and [expression] do not
    log that something is missing: the diagnostic [Invalid token] cannot be
    formatted, and the [TypeError] leaves all three with the state
    unchanged. *)
Theorem expression_at_end_of_input_raises (fuel : nat) (s : Parser) :
  current_token s = None ->
  factor (2 + fuel) s = Raised TypeError s /\
  term (3 + fuel) s = Raised TypeError s /\
  expression (4 + fuel) s = Raised TypeError s.
Proof.
  intros C. destruct s as [T c i e]. simpl in C. subst c.
  repeat split; reflexivity.
Qed.

Lemma expression_at_end_of_input_raises_witness :
  current_token (mkParser [] None 0 []) = None /\
  expression 4 (mkParser [] None 0 []) =
  Raised TypeError (mkParser [] None 0 []).
Proof.
  split.
  - reflexivity.
  - apply (expression_at_end_of_input_raises 0 (mkParser [] None 0 [])).
    reflexivity.
Defined.

(** ** [print_tree] *)



(** X7. Printing after [add_child] prints the old tree and then the new
    child one level deeper: the child comes last, and nothing else moves. *)
Theorem print_tree_add_child (n child : Node) (depth : nat) :
  print_tree (add_child n child) depth =
  print_tree n depth ++ print_tree child (depth + 1).
Proof.
  destruct n as [nm v cs]. unfold add_child.
  cbn [print_tree name value children].
  rewrite flat_map_app. cbn [flat_map]. rewrite app_nil_r. reflexivity.
Qed.






(** ** What [term] and [expression] return *)

Lemma operand_chain_snoc first pairs op x :
  (operand_chain first pairs ++ [op]) ++ [x] =
  operand_chain first (pairs ++ [(op, x)]).
Proof.
  unfold operand_chain. rewrite flat_map_app. simpl.
  rewrite <- app_assoc. reflexivity.
Qed.

Lemma found_current_Ok s x s' : found_current s = Ok x s' -> s' = s.
Proof.
  unfold found_current, bind, current_kind, current_lexeme.
  destruct (current_token s) as [[k l]|] eqn:C; [|discriminate].
  rewrite C. intros E. inversion E. reflexivity.
Qed.

Lemma append_error_Ok msg s u s' :
  append_error msg s = Ok u s' ->
  errors s' = errors s ++ [msg] /\ current_token s' = current_token s /\
  tokens s' = tokens s /\ index s' = index s.
Proof. unfold append_error. intros E. inversion E. simpl. auto. Qed.

Lemma term_loop_shape fuel :
  forall n s r s' first pairs,
    term_loop fuel n s = Ok r s' ->
    children n = operand_chain first pairs ->
    Forall (fun p => operator_node (fst p)) pairs ->
    exists n' pairs',
      r = Some n' /\ name n' = name n /\ value n' = value n /\
      children n' = operand_chain first pairs' /\
      Forall (fun p => operator_node (fst p)) pairs'.
Proof.
  induction fuel as [|f IH]; intros n s r s' first pairs H Hc Hp;
    simpl in H; [discriminate|].
  invert_bind H. destruct a.
  - invert_bind H. invert_bind H. invert_bind H.
    destruct a1 as [fn|].
    + eapply IH in H.
      * destruct H as (n' & pairs' & -> & Hn & Hv & Hc' & Hp').
        exists n', pairs'. repeat split; eauto.
      * cbn [add_child children name value]. rewrite Hc.
        apply operand_chain_snoc.
      * apply Forall_app. split; [exact Hp|]. constructor; [|constructor].
        repeat split; try reflexivity. discriminate.
    + invert_bind H. invert_bind H. eapply IH in H; eauto.
  - unfold ret in H. injection H as <- _. exists n, pairs. auto.
Qed.

Lemma term_shape (fuel : nat) (s : Parser) (r : option Node)
    (s' : Parser) :
  term fuel s = Ok r s' ->
  exists n,
    r = Some n /\ name n = "term"%string /\ value n = None /\
    (children n = [] \/
     exists first pairs,
       children n = operand_chain first pairs /\
       Forall (fun p => operator_node (fst p)) pairs).
Proof.
  intros H. destruct fuel as [|f]; simpl in H; [discriminate|].
  invert_bind H. invert_bind H. destruct a0 as [fn|].
  - apply (term_loop_shape f _ _ _ _ fn []) in H;
      [|reflexivity|constructor].
    destruct H as (n' & pairs' & -> & Hn & Hv & Hc & Hp).
    exists n'. repeat split; auto. right. eauto.
  - invert_bind H. invert_bind H. unfold ret in H. injection H as <- _.
    eexists. repeat split. left. reflexivity.
Qed.

(** X9. [term] never returns the absence signal.  The node it returns is
    named [term], has no value, and its children are either none (the first
    factor failed) or a chain [factor, operator, factor, ...] of odd length
    in which every second node is an [arithmetic_operator] leaf with its
    lexeme. *)
Theorem term_returns_chain (fuel : nat) (s : Parser) (r : option Node)
    (s' : Parser) :
  term fuel s = Ok r s' ->
  exists n,
    r = Some n /\ name n = "term"%string /\ value n = None /\
    (children n = [] \/
     exists first pairs,
       children n = operand_chain first pairs /\
       Forall (fun p => operator_node (fst p)) pairs).
Proof. exact (term_shape fuel s r s'). Qed.

Lemma term_returns_chain_witness :
  exists n,
    Some (mkNode "term" None [mkNode "number" (Some "1") []])%string = Some n /\
    name n = "term"%string /\ value n = None /\
    (children n = [] \/
     exists first pairs,
       children n = operand_chain first pairs /\
       Forall (fun p => operator_node (fst p)) pairs).
Proof.
  apply (term_returns_chain 3 (started [("NUMBER", "1")]%string) _
           (mkParser [("NUMBER", "1")]%string None 1 [])).
  reflexivity.
Defined.

Lemma expression_loop_shape fuel :
  forall n s r s' first pairs,
    expression_loop fuel n s = Ok r s' ->
    children n = operand_chain first pairs ->
    Forall (fun p => operator_node (fst p) /\ name (snd p) = "term"%string)
      pairs ->
    exists n' pairs',
      r = Some n' /\ name n' = name n /\ value n' = value n /\
      children n' = operand_chain first pairs' /\
      Forall (fun p => operator_node (fst p) /\ name (snd p) = "term"%string)
        pairs'.
Proof.
  induction fuel as [|f IH]; intros n s r s' first pairs H Hc Hp;
    simpl in H; [discriminate|].
  invert_bind H. destruct a.
  - invert_bind H. invert_bind H. invert_bind H.
    destruct (term_shape _ _ _ _ H3) as (t & -> & Ht & _).
    eapply IH in H.
    + destruct H as (n' & pairs' & -> & Hn & Hv & Hc' & Hp').
      exists n', pairs'. repeat split; eauto.
    + cbn [add_child children name value]. rewrite Hc.
      apply operand_chain_snoc.
    + apply Forall_app. split; [exact Hp|]. constructor; [|constructor].
      repeat split; try reflexivity; try exact Ht. discriminate.
  - unfold ret in H. injection H as <- _. exists n, pairs. auto.
Qed.

Lemma extends_errors_squeeze s s1 s' :
  extends s s1 -> extends s1 s' -> errors s' = errors s ->
  errors s1 = errors s.
Proof.
  intros [_ _ _ (l1 & E1 & _)] [_ _ _ (l2 & E2 & _)] E.
  rewrite E2, E1, <- app_assoc in E.
  rewrite <- (app_nil_r (errors s)) in E at 2.
  apply app_inv_head in E. apply app_eq_nil in E. destruct E as [-> _].
  rewrite E1. apply app_nil_r.
Qed.

Lemma extends_errors_end s s1 s' :
  extends s s1 -> extends s1 s' -> errors s' = errors s ->
  errors s' = errors s1.
Proof.
  intros H1 H2 E. rewrite E. symmetry.
  eapply extends_errors_squeeze; eassumption.
Qed.

Lemma not_extended_by_append s s1 msg s' u :
  extends s s1 -> append_error msg s1 = Ok u s' -> errors s' <> errors s.
Proof.
  intros [_ _ _ (l1 & E1 & _)] H E.
  apply append_error_Ok in H. destruct H as (H & _).
  rewrite H, E1, <- app_assoc in E.
  rewrite <- (app_nil_r (errors s)) in E at 2.
  apply app_inv_head in E. apply app_eq_nil in E. destruct E as [_ E].
  discriminate.
Qed.

(** When [term] returns without having logged anything, the current token
    is not an arithmetic operator. *)
Lemma term_clean_leaves_no_operator fuel s r s' :
  term fuel s = Ok r s' -> errors s' = errors s ->
  match_token "ARITHMETIC_OPERATOR" s' = Ok false s'.
Proof.
  intros H E. destruct fuel as [|f]; simpl in H; [discriminate|].
  invert_bind H. invert_bind H. destruct a0 as [fn|].
  - eapply term_loop_leaves_no_operator. exact H.
  - exfalso. invert_bind H. invert_bind H.
    apply found_current_Ok in H2. subst s2.
    unfold ret in H. injection H as _ <-.
    apply (monotone_Ok _ _ _ _ (monotone_skip_whitespace f)) in H0.
    apply (monotone_Ok _ _ _ _ (monotone_factor f)) in H1.
    eapply not_extended_by_append; [|exact H3|exact E].
    eapply extends_trans; eassumption.
Qed.

Lemma expression_shape (fuel : nat) (s : Parser) (r : option Node)
    (s' : Parser) :
  expression fuel s = Ok r s' ->
  exists n first pairs,
    r = Some n /\ name n = "expression"%string /\ value n = None /\
    children n = operand_chain first pairs /\
    name first = "term"%string /\
    Forall (fun p => operator_node (fst p) /\ name (snd p) = "term"%string)
      pairs /\
    (errors s' = errors s -> pairs = []).
Proof.
  intros H. destruct fuel as [|f]; simpl in H; [discriminate|].
  invert_bind H. invert_bind H.
  destruct (term_shape _ _ _ _ H1) as (t & -> & Ht & _).
  pose proof H as HL.
  apply (expression_loop_shape f _ _ _ _ t []) in H;
    [|reflexivity|constructor].
  destruct H as (n' & pairs' & -> & Hn & Hv & Hc & Hp).
  exists n', t, pairs'. repeat split; auto.
  intros E.
  pose proof (monotone_Ok _ _ _ _ (monotone_skip_whitespace f) H0) as X0.
  pose proof (monotone_Ok _ _ _ _ (monotone_term f) H1) as X1.
  pose proof (monotone_Ok _ _ _ _ (monotone_expression_loop f _) HL) as X2.
  assert (E1 : errors s1 = errors s0).
  { eapply extends_errors_squeeze; [exact X1|exact X2|].
    rewrite E. symmetry. eapply extends_errors_squeeze; [exact X0| |exact E].
    eapply extends_trans; eassumption. }
  pose proof (term_clean_leaves_no_operator _ _ _ _ H1 E1) as M.
  destruct f as [|f']; simpl in HL; [discriminate|].
  unfold bind in HL. rewrite M in HL. unfold ret in HL.
  injection HL as HL _. subst n'. cbn [add_child children] in Hc.
  unfold operand_chain in Hc. injection Hc as Hc.
  destruct pairs'; [reflexivity | discriminate].
Qed.

(** X10. [expression] never returns the absence signal.  The node it
    returns is named [expression], has no value, and its children are a
    chain [term, operator, term, ...] that starts with a [term] node.  When
    [expression] has logged nothing, the chain is the single [term]: every
    arithmetic operator has been taken by the loop of [term]. *)
Theorem expression_returns_chain (fuel : nat) (s : Parser) (r : option Node)
    (s' : Parser) :
  expression fuel s = Ok r s' ->
  exists n first pairs,
    r = Some n /\ name n = "expression"%string /\ value n = None /\
    children n = operand_chain first pairs /\
    name first = "term"%string /\
    Forall (fun p => operator_node (fst p) /\ name (snd p) = "term"%string)
      pairs /\
    (errors s' = errors s -> pairs = []).
Proof. exact (expression_shape fuel s r s'). Qed.

Lemma expression_returns_chain_witness :
  exists n first pairs,
    Some a_plus_1_times_2_tree = Some n /\
    name n = "expression"%string /\ value n = None /\
    children n = operand_chain first pairs /\
    name first = "term"%string /\
    Forall (fun p => operator_node (fst p) /\ name (snd p) = "term"%string)
      pairs /\
    (errors (mkParser a_plus_1_times_2 None 5 []) =
     errors (started a_plus_1_times_2) -> pairs = []).
Proof.
  apply (expression_returns_chain 9 (started a_plus_1_times_2)).
  reflexivity.
Defined.

(** ** What [statement] returns *)

Lemma skip_whitespace_Ok_same fuel k l s u s' :
  current_token s = Some (k, l) -> String.eqb k "WHITESPACE" = false ->
  skip_whitespace fuel s = Ok u s' -> s' = s.
Proof.
  intros C N H. destruct fuel as [|f]; [discriminate|].
  rewrite (skip_whitespace_not_whitespace _ _ _ _ C N) in H.
  inversion H. reflexivity.
Qed.

Lemma assignment_statement_at_identifier fuel s l r s' :
  current_token s = Some ("IDENTIFIER", l)%string ->
  assignment_statement fuel s = Ok r s' ->
  exists op e,
    r = Some (mkNode "assignment_statement" None
                [mkNode "identifier" (Some l) [];
                 mkNode "assignment_operator" (Some op) []; e]) /\
    name e = "expression"%string.
Proof.
  intros C H. destruct fuel as [|f]; simpl in H; [discriminate|].
  unfold bind at 1 in H. rewrite (match_token_current _ _ _ _ C) in H.
  cbn [String.eqb Ascii.eqb Bool.eqb] in H. cbv beta iota in H.
  unfold bind at 1 in H. rewrite (current_lexeme_current _ _ _ C) in H.
  do 7 invert_bind H.
  destruct (expression_shape _ _ _ _ H6)
    as (e & first & pairs & -> & He & _).
  unfold ret in H. injection H as <- _.
  eexists _, _. split; [reflexivity | exact He].
Qed.

Lemma conditional_statement_at_keyword_Ok fuel s l r s' :
  current_token s = Some ("CONDITIONAL_KEYWORD", l)%string ->
  conditional_statement fuel s = Ok r s' ->
  r = Some (mkNode "conditional_statement" (Some l) []) /\
  errors s' = errors s.
Proof.
  intros C H. destruct fuel as [|f]; simpl in H; [discriminate|].
  invert_bind H.
  apply (skip_whitespace_Ok_same _ _ _ _ _ _ C eq_refl) in H0. subst s0.
  unfold bind at 1 in H. rewrite (match_token_current _ _ _ _ C) in H.
  cbn [String.eqb Ascii.eqb Bool.eqb] in H. cbv beta iota in H.
  unfold bind at 1 in H. rewrite (current_lexeme_current _ _ _ C) in H.
  invert_bind H. unfold bind, logical_expression, ret in H.
  injection H as <- <-. split; [reflexivity|].
  apply consume_token_keeps in H0. apply H0.
Qed.

Lemma loop_statement_at_keyword_Ok fuel s l r s' :
  current_token s = Some ("LOOP_KEYWORD", l)%string ->
  loop_statement fuel s = Ok r s' ->
  exists n, r = Some n /\ name n = "loop_statement"%string /\
            value n = Some l.
Proof.
  intros C H. destruct fuel as [|f]; simpl in H; [discriminate|].
  invert_bind H.
  apply (skip_whitespace_Ok_same _ _ _ _ _ _ C eq_refl) in H0. subst s0.
  unfold bind at 1 in H. rewrite (match_token_current _ _ _ _ C) in H.
  cbn [String.eqb Ascii.eqb Bool.eqb] in H. cbv beta iota in H.
  unfold bind at 1 in H. rewrite (current_lexeme_current _ _ _ C) in H.
  invert_bind H. invert_bind H. destruct a1.
  - do 6 invert_bind H.
    destruct a6 as [sl|]; unfold ret in H; injection H as <- _;
      eexists; repeat split.
  - do 2 invert_bind H. unfold ret in H. injection H as <- _.
    eexists; repeat split.
Qed.

Lemma statement_dispatch_shape fuel s k l r s' :
  current_token s = Some (k, l) ->
  statement fuel s = Ok r s' ->
  match r with
  | Some n =>
      (k = "IDENTIFIER"%string /\ name n = "assignment_statement"%string) \/
      (k = "CONDITIONAL_KEYWORD"%string /\
       n = mkNode "conditional_statement" (Some l) []) \/
      (k = "LOOP_KEYWORD"%string /\ name n = "loop_statement"%string /\
       value n = Some l)
  | None =>
      k <> "IDENTIFIER"%string /\ k <> "CONDITIONAL_KEYWORD"%string /\
      k <> "LOOP_KEYWORD"%string /\
      exists rest, errors s' = errors s ++ statement_type_message k l :: rest
  end.
Proof.
  intros C H.
  destruct (String.eqb_spec k "IDENTIFIER") as [->|N1].
  { destruct fuel as [|f]; simpl in H; [discriminate|].
    invert_bind H. unfold bind at 1 in H0.
    rewrite (match_token_current _ _ _ _ C) in H0.
    cbn [String.eqb Ascii.eqb Bool.eqb] in H0. cbv beta iota in H0.
    destruct (assignment_statement_at_identifier _ _ _ _ _ C H0)
      as (op & e & -> & _).
    invert_bind H. unfold ret in H. injection H as <- _. left. auto. }
  destruct (String.eqb_spec k "CONDITIONAL_KEYWORD") as [->|N2].
  { destruct fuel as [|f]; simpl in H; [discriminate|].
    invert_bind H. unfold bind at 1 in H0.
    rewrite (match_token_current _ _ _ _ C) in H0.
    cbn [String.eqb Ascii.eqb Bool.eqb] in H0. cbv beta iota in H0.
    unfold bind at 1 in H0. rewrite (match_token_current _ _ _ _ C) in H0.
    cbn [String.eqb Ascii.eqb Bool.eqb] in H0. cbv beta iota in H0.
    destruct (conditional_statement_at_keyword_Ok _ _ _ _ _ C H0) as (-> & _).
    invert_bind H. unfold ret in H. injection H as <- _. right. left. auto. }
  destruct (String.eqb_spec k "LOOP_KEYWORD") as [->|N3].
  { destruct fuel as [|f]; simpl in H; [discriminate|].
    invert_bind H. unfold bind at 1 in H0.
    rewrite (match_token_current _ _ _ _ C) in H0.
    cbn [String.eqb Ascii.eqb Bool.eqb] in H0. cbv beta iota in H0.
    unfold bind at 1 in H0. rewrite (match_token_current _ _ _ _ C) in H0.
    cbn [String.eqb Ascii.eqb Bool.eqb] in H0. cbv beta iota in H0.
    unfold bind at 1 in H0. rewrite (match_token_current _ _ _ _ C) in H0.
    cbn [String.eqb Ascii.eqb Bool.eqb] in H0. cbv beta iota in H0.
    destruct (loop_statement_at_keyword_Ok _ _ _ _ _ C H0)
      as (n & -> & Hn & Hv).
    invert_bind H. unfold ret in H. injection H as <- _. right. right. auto. }
  destruct fuel as [|f]; [discriminate|].
  rewrite (statement_unrecognised k l N1 N2 N3 f s C) in H.
  do 3 invert_bind H. unfold ret in H. injection H as <- <-.
  repeat split; try assumption.
  apply append_error_Ok in H0. destruct H0 as (E0 & _).
  apply consume_token_keeps in H1. destruct H1 as (E1 & _).
  apply (monotone_Ok _ _ _ _ monotone_newline) in H2.
  destruct H2 as [_ _ _ (l2 & E2 & _)].
  exists l2. rewrite E2, E1, E0, <- app_assoc. reflexivity.
Qed.

(** X11. [statement] dispatches on the kind of the current token alone: an
    IDENTIFIER gives an [assignment_statement] node, a CONDITIONAL_KEYWORD a
    childless [conditional_statement] node with the keyword's lexeme, a
    LOOP_KEYWORD a [loop_statement] node with the keyword's lexeme.  It
    returns the absence signal exactly for a token of any other kind, and
    then the diagnostic [Expected a statement type, found <kind>: <lexeme>]
    has been appended. *)
Theorem statement_dispatches_on_kind
    (fuel : nat) (s : Parser) (k l : string) (r : option Node) (s' : Parser) :
  current_token s = Some (k, l) ->
  statement fuel s = Ok r s' ->
  match r with
  | Some n =>
      (k = "IDENTIFIER"%string /\ name n = "assignment_statement"%string) \/
      (k = "CONDITIONAL_KEYWORD"%string /\
       n = mkNode "conditional_statement" (Some l) []) \/
      (k = "LOOP_KEYWORD"%string /\ name n = "loop_statement"%string /\
       value n = Some l)
  | None =>
      k <> "IDENTIFIER"%string /\ k <> "CONDITIONAL_KEYWORD"%string /\
      k <> "LOOP_KEYWORD"%string /\
      exists rest, errors s' = errors s ++ statement_type_message k l :: rest
  end.
Proof. exact (statement_dispatch_shape fuel s k l r s'). Qed.

(** ** How the loop of [statement_list] ends *)

Lemma extends_logged s s1 s2 : extends s s1 -> logged s1 s2 -> logged s s2.
Proof.
  intros [_ _ _ (l1 & E1 & _)] (d & ds & E2).
  destruct l1 as [|d1 l1].
  - exists d, ds. rewrite E2, E1, app_nil_r. reflexivity.
  - exists d1, (l1 ++ d :: ds). rewrite E2, E1, <- app_assoc. reflexivity.
Qed.

Lemma logged_extends s s1 s2 : logged s s1 -> extends s1 s2 -> logged s s2.
Proof.
  intros (d & ds & E1) [_ _ _ (l2 & E2 & _)].
  exists d, (ds ++ l2). rewrite E2, E1, <- app_assoc. reflexivity.
Qed.

Lemma logged_not_same s s' : logged s s' -> errors s' <> errors s.
Proof.
  intros (d & ds & E) H. rewrite E in H.
  rewrite <- (app_nil_r (errors s)) in H at 2.
  apply app_inv_head in H. discriminate.
Qed.

(** The loop of [statement_list] ends at end of input or after a
    diagnostic. *)
Lemma statement_list_loop_exit fuel :
  forall n s r s',
    statement_list_loop fuel n s = Ok r s' ->
    current_token s' = None \/ logged s s'.
Proof.
  induction fuel as [|f IH]; intros n s r s' H; simpl in H; [discriminate|].
  invert_bind H. apply get_current_Ok in H0. destruct H0 as [-> ->].
  destruct (current_token s) as [[k l]|] eqn:C.
  - invert_bind H.
    pose proof (statement_dispatch_shape _ _ _ _ _ _ C H0) as D.
    destruct a as [st|].
    + apply (monotone_Ok _ _ _ _ (monotone_statement f)) in H0.
      apply IH in H. destruct H as [H|H]; [left; exact H|].
      right. eapply extends_logged; eassumption.
    + unfold ret in H. injection H as _ <-.
      destruct D as (_ & _ & _ & rest & E). right.
      exists (statement_type_message k l), rest. exact E.
  - unfold ret in H. injection H as _ <-. left. exact C.
Qed.

Lemma statement_list_exit fuel s r s' :
  statement_list fuel s = Ok r s' ->
  current_token s' = None \/ logged s s'.
Proof.
  destruct fuel as [|f]; simpl; [discriminate|].
  apply statement_list_loop_exit.
Qed.

Lemma expect_token_without_current k s :
  current_token s = None -> expect_token k s = Raised TypeError s.
Proof.
  intros C. unfold expect_token, bind, match_token. rewrite C.
  unfold found_current, bind, current_kind. rewrite C. reflexivity.
Qed.

Lemma loop_statement_exit fuel s l r s' :
  current_token s = Some ("LOOP_KEYWORD", l)%string ->
  loop_statement fuel s = Ok r s' ->
  current_token s' = None \/ logged s s'.
Proof.
  intros C H. destruct fuel as [|f]; simpl in H; [discriminate|].
  apply bind_Ok_inv in H. destruct H as (u0 & s0 & Hw & H).
  apply (skip_whitespace_Ok_same _ _ _ _ _ _ C eq_refl) in Hw. subst s0.
  unfold bind at 1 in H. rewrite (match_token_current _ _ _ _ C) in H.
  cbn [String.eqb Ascii.eqb Bool.eqb] in H. cbv beta iota in H.
  unfold bind at 1 in H. rewrite (current_lexeme_current _ _ _ C) in H.
  apply bind_Ok_inv in H. destruct H as (u1 & sa & Hc1 & H).
  pose proof (monotone_Ok _ _ _ _ monotone_consume_token Hc1) as X0.
  apply bind_Ok_inv in H. destruct H as (b & sa' & Hm & H).
  apply match_token_true in Hm. destruct Hm as [-> _].
  destruct b.
  - apply bind_Ok_inv in H. destruct H as (x & sa' & Hl & H).
    apply current_lexeme_Ok in Hl. subst sa'.
    apply bind_Ok_inv in H. destruct H as (u2 & sb & Hc2 & H).
    apply bind_Ok_inv in H. destruct H as (u3 & sc & He & H).
    apply bind_Ok_inv in H. destruct H as (u4 & sd & Hn & H).
    apply bind_Ok_inv in H. destruct H as (u5 & se & Hi & H).
    apply bind_Ok_inv in H. destruct H as (sl & sf & Hsl & H).
    pose proof (monotone_Ok _ _ _ _ monotone_consume_token Hc2) as X1.
    pose proof (monotone_Ok _ _ _ _ (monotone_expect_token _) He) as X2.
    pose proof (monotone_Ok _ _ _ _ monotone_newline Hn) as X3.
    pose proof (monotone_Ok _ _ _ _ monotone_indent Hi) as X4.
    assert (R : s' = sf).
    { destruct sl; unfold ret in H; injection H as _ <-; reflexivity. }
    subst s'.
    destruct (statement_list_exit _ _ _ _ Hsl) as [E|E]; [left; exact E|].
    right. eapply extends_logged; [|exact E].
    repeat (eapply extends_trans; [eassumption|]). apply extends_refl.
  - apply bind_Ok_inv in H. destruct H as (x & sa' & Hf & H).
    apply found_current_Ok in Hf. subst sa'.
    apply bind_Ok_inv in H. destruct H as (u2 & sb & Ha & H).
    unfold ret in H. injection H as _ <-.
    right. eapply extends_logged; [exact X0|].
    apply append_error_Ok in Ha. destruct Ha as (E & _).
    eexists _, []. exact E.
Qed.

Lemma loop_statement_logs
    (fuel : nat) (s : Parser) (l : string) (r : option Node) (s' : Parser) :
  current_token s = Some ("LOOP_KEYWORD", l)%string ->
  statement fuel s = Ok r s' ->
  logged s s'.
Proof.
  intros C H. destruct fuel as [|f]; simpl in H; [discriminate|].
  invert_bind H. unfold bind at 1 in H0.
  rewrite (match_token_current _ _ _ _ C) in H0.
  cbn [String.eqb Ascii.eqb Bool.eqb] in H0. cbv beta iota in H0.
  unfold bind at 1 in H0. rewrite (match_token_current _ _ _ _ C) in H0.
  cbn [String.eqb Ascii.eqb Bool.eqb] in H0. cbv beta iota in H0.
  unfold bind at 1 in H0. rewrite (match_token_current _ _ _ _ C) in H0.
  cbn [String.eqb Ascii.eqb Bool.eqb] in H0. cbv beta iota in H0.
  invert_bind H. unfold ret in H. injection H as _ <-.
  destruct (loop_statement_exit _ _ _ _ _ C H0) as [E|E].
  - unfold newline in H1. rewrite (expect_token_without_current _ _ E) in H1.
    discriminate.
  - eapply logged_extends; [exact E|].
    apply (monotone_Ok _ _ _ _ monotone_newline H1).
Qed.

(** X12. A statement that starts with a LOOP_KEYWORD never goes through
    cleanly: whenever [statement] returns from it, at least one diagnostic
    has been appended.  The body of the loop runs to the end of input or to
    a diagnostic, and at the end of input the [newline] check that follows
    every statement raises instead of returning. *)
Theorem loop_statement_always_logs
    (fuel : nat) (s : Parser) (l : string) (r : option Node) (s' : Parser) :
  current_token s = Some ("LOOP_KEYWORD", l)%string ->
  statement fuel s = Ok r s' ->
  logged s s'.
Proof. exact (loop_statement_logs fuel s l r s'). Qed.

Lemma loop_statement_always_logs_witness :
  logged
    (started [("LOOP_KEYWORD", "for"); ("NUMBER", "1"); ("NEWLINE", nl)]%string)
    (mkParser
       [("LOOP_KEYWORD", "for"); ("NUMBER", "1"); ("NEWLINE", nl)]%string
       (Some ("NUMBER", "1")%string) 2
       ["Expected an identifier, found NUMBER: 1";
        "Expected 'NEWLINE', found NUMBER: 1"]%string).
Proof.
  apply (loop_statement_always_logs 3
           (started [("LOOP_KEYWORD", "for"); ("NUMBER", "1");
                     ("NEWLINE", nl)]%string)
           "for" (Some (mkNode "loop_statement" (Some "for"%string) []))).
  - reflexivity.
  - reflexivity.
Defined.

Lemma statement_dispatches_on_kind_witness :
  ("NUMBER" <> "IDENTIFIER" /\ "NUMBER" <> "CONDITIONAL_KEYWORD" /\
   "NUMBER" <> "LOOP_KEYWORD")%string /\
  exists rest,
    ["Expected a statement type, found NUMBER: 1"%string;
     "Expected 'NEWLINE', found NUMBER: 2"%string] =
    [] ++ statement_type_message "NUMBER" "1" :: rest.
Proof.
  pose proof (statement_dispatches_on_kind 1
                (started [("NUMBER", "1"); ("NUMBER", "2")]%string)
                "NUMBER" "1" None
                (mkParser [("NUMBER", "1"); ("NUMBER", "2")]%string
                   (Some ("NUMBER", "2")%string) 2
                   ["Expected a statement type, found NUMBER: 1"%string;
                    "Expected 'NEWLINE', found NUMBER: 2"%string])
                eq_refl eq_refl) as (N1 & N2 & N3 & R).
  repeat split; assumption.
Defined.

(** ** What a successful parse means *)

Lemma program_Ok_shape fuel s t s' :
  program fuel s = Ok t s' ->
  exists sl, t = mkNode "program" None [sl] /\
             statement_list fuel s = Ok (Some sl) s'.
Proof.
  unfold program. intros H.
  apply bind_Ok_inv in H. destruct H as (r & s1 & Hsl & H).
  destruct (statement_list_returns_node _ _ _ _ Hsl) as [sl ->].
  unfold ret in H. injection H as <- <-. exists sl. split; [reflexivity|].
  exact Hsl.
Qed.

Lemma statement_list_loop_name fuel :
  forall n s r s',
    statement_list_loop fuel n s = Ok r s' ->
    exists n', r = Some n' /\ name n' = name n.
Proof.
  induction fuel as [|f IH]; intros n s r s' H; simpl in H; [discriminate|].
  apply bind_Ok_inv in H. destruct H as (c & s0 & _ & H).
  destruct c as [t|].
  - apply bind_Ok_inv in H. destruct H as (st & s1 & _ & H).
    destruct st as [st|].
    + apply IH in H. destruct H as (n' & -> & Hn). eauto.
    + unfold ret in H. injection H as <- _. eauto.
  - unfold ret in H. injection H as <- _. eauto.
Qed.

(** X13. What the result of [parse] tells its caller.  When [parse] returns
    a tree, the error log is empty, the whole token string has been consumed
    (no token is current and the index is its length), and the tree is a
    [program] node whose only child is the [statement_list] node.  When it
    returns [None], the error log is not empty. *)
Theorem parse_result_meaning
    (fuel : nat) (toks : list Token) (r : option Node) (s' : Parser) :
  parse fuel (init toks) = Ok r s' ->
  match r with
  | Some t =>
      errors s' = [] /\ current_token s' = None /\
      index s' = length toks /\ tokens s' = toks /\
      exists sl, t = mkNode "program" None [sl] /\
                 name sl = "statement_list"%string
  | None => errors s' <> []
  end.
Proof.
  intros H. unfold parse in H. unfold bind at 1 in H.
  rewrite consume_token_init in H.
  apply bind_Ok_inv in H. destruct H as (t & s1 & Hp & H).
  unfold bind, get_errors in H.
  destruct (errors s1) as [|e es] eqn:E; unfold ret in H;
    injection H as <- <-; [|rewrite E; discriminate].
  destruct (program_Ok_shape _ _ _ _ Hp) as (sl & -> & Hsl).
  assert (Hco : coherent s1).
  { pose proof (preserves_program coherent coherent_consume_token
                  coherent_append_error fuel (started toks)
                  (coherent_started toks)) as Hc.
    rewrite Hp in Hc. exact Hc. }
  assert (Htk : tokens s1 = toks).
  { pose proof (monotone_Ok _ _ _ _ (monotone_program fuel) Hp) as X.
    rewrite (ext_tokens _ _ X). destruct toks; reflexivity. }
  assert (Hcur : current_token s1 = None).
  { destruct (statement_list_exit _ _ _ _ Hsl) as [C|(d & ds & L)];
      [exact C|].
    rewrite E in L. destruct (errors (started toks)); discriminate. }
  repeat split; try assumption.
  - destruct Hco as [_ Hco]. rewrite Hcur in Hco. rewrite Hco, Htk.
    reflexivity.
  - exists sl. split; [reflexivity|].
    destruct fuel as [|f]; simpl in Hsl; [discriminate|].
    apply statement_list_loop_name in Hsl.
    destruct Hsl as (n' & Hn' & Hname). injection Hn' as ->. exact Hname.
Qed.

Lemma parse_result_meaning_witness :
  errors (mkParser [] None 0 []) = [] /\
  current_token (mkParser [] None 0 []) = None /\
  index (mkParser [] None 0 []) = length (@nil Token) /\
  tokens (mkParser [] None 0 []) = [] /\
  exists sl,
    mkNode "program" None [mkNode "statement_list" None []] =
    mkNode "program" None [sl] /\
    name sl = "statement_list"%string.
Proof.
  apply (parse_result_meaning 2 []
           (Some (mkNode "program" None [mkNode "statement_list" None []]))
           (mkParser [] None 0 [])).
  reflexivity.
Defined.

(** ** The lines that parse without a diagnostic *)

Lemma statement_list_loop_accepted_last fuel acc x t v errs :
  statement_list_loop (8 + fuel) (mkNode "statement_list" None acc)
    (mkParser (accepted_line x t v) (Some ("IDENTIFIER", x)%string) 1 errs) =
  Ok (Some (mkNode "statement_list" None (acc ++ [accepted_node (x, t, v)])))
     (mkParser (accepted_line x t v) None 5 errs).
Proof. destruct t as [kt lt]. reflexivity. Qed.

Lemma statement_list_loop_accepted_next fuel acc x t v x' rest errs :
  let toks := accepted_line x t v ++ ("IDENTIFIER"%string, x') :: rest in
  statement_list_loop (S (7 + fuel)) (mkNode "statement_list" None acc)
    (mkParser toks (Some ("IDENTIFIER", x)%string) 1 errs) =
  statement_list_loop (7 + fuel)
    (mkNode "statement_list" None (acc ++ [accepted_node (x, t, v)]))
    (mkParser toks (Some ("IDENTIFIER", x')%string) 6 errs).
Proof. destruct t as [kt lt]. reflexivity. Qed.

Lemma statement_list_loop_accepted lines :
  forall x t v fuel acc errs,
    length lines + 8 <= fuel ->
    exists s',
      statement_list_loop fuel (mkNode "statement_list" None acc)
        (mkParser (accepted_lines ((x, t, v) :: lines))
           (Some ("IDENTIFIER", x)%string) 1 errs) =
      Ok (Some (mkNode "statement_list" None
                  (acc ++ map accepted_node ((x, t, v) :: lines)))) s' /\
      errors s' = errs /\ current_token s' = None.
Proof.
  induction lines as [|[[x' t'] v'] ls IH]; intros x t v fuel acc errs Hfuel.
  - replace fuel with (8 + (fuel - 8)) by (simpl in Hfuel; lia).
    eexists. split; [apply statement_list_loop_accepted_last|].
    split; reflexivity.
  - destruct fuel as [|F]; [simpl in Hfuel; lia|].
    replace F with (7 + (F - 7)) by (simpl in Hfuel; lia).
    change (accepted_lines ((x, t, v) :: (x', t', v') :: ls)) with
      (accepted_line x t v ++
       ("IDENTIFIER"%string, x') ::
       tl (accepted_lines ((x', t', v') :: ls))).
    rewrite statement_list_loop_accepted_next.
    set (n' := mkNode "statement_list" None (acc ++ [accepted_node (x, t, v)])).
    destruct (IH x' t' v' (7 + (F - 7)) (acc ++ [accepted_node (x, t, v)])
                errs) as (s1 & E & Er & Cu); [simpl in Hfuel; lia|].
    assert (Sh : shifted (accepted_line x t v)
                   (mkParser (accepted_lines ((x', t', v') :: ls))
                      (Some ("IDENTIFIER"%string, x')) 1 errs)
                   (mkParser
                      (accepted_line x t v ++
                       ("IDENTIFIER"%string, x') ::
                       tl (accepted_lines ((x', t', v') :: ls)))
                      (Some ("IDENTIFIER"%string, x')) 6 errs))
      by (split; reflexivity).
    pose proof (shift_invariant_statement_list_loop (7 + (F - 7)) n' _ _ _ Sh)
      as O.
    subst n'. rewrite E in O.
    destruct (statement_list_loop (7 + (F - 7)) _
                (mkParser (accepted_line x t v ++ _) _ 6 errs))
      as [a s2|e s2|]; simpl in O; try contradiction.
    destruct O as [<- [_ _ Cu2 Er2]]. exists s2.
    split; [|split; congruence].
    rewrite <- app_assoc. reflexivity.
Qed.

(** X14. The lines the parser does accept.  For every n, on n lines of the
    five tokens IDENTIFIER, ASSIGNMENT_OPERATOR, [t], NUMBER, NEWLINE, where
    [t] is any token at all, [parse] returns the tree with one
    [assignment_statement] node for each line, in order, and the error log
    stays empty.  Each node has the identifier, an [assignment_operator]
    node that carries the lexeme of [t], and the expression of the
    number. *)
Theorem parse_accepted_lines
    (lines : list (string * Token * string)) (fuel : nat) :
  length lines + 9 <= fuel ->
  exists s',
    parse fuel (init (accepted_lines lines)) =
    Ok (Some (mkNode "program" None
                [mkNode "statement_list" None (map accepted_node lines)])) s'
    /\ errors s' = [].
Proof.
  intros Hfuel. destruct fuel as [|F]; [lia|].
  destruct lines as [|[[x t] v] ls].
  - replace F with (1 + (F - 1)) by lia. eexists. split; reflexivity.
  - destruct (statement_list_loop_accepted ls x t v F [] [])
      as (s' & E & Er & _); [simpl in Hfuel; lia|].
    exists s'. split; [|exact Er].
    unfold parse, bind. rewrite consume_token_init.
    unfold program, bind. cbn [statement_list].
    change (started (accepted_lines ((x, t, v) :: ls))) with
      (mkParser (accepted_lines ((x, t, v) :: ls))
         (Some ("IDENTIFIER"%string, x)) 1 []).
    rewrite E. unfold get_errors, ret. cbv beta iota. rewrite Er.
    reflexivity.
Qed.

Lemma parse_accepted_lines_witness :
  length [("x", ("ASSIGNMENT_OPERATOR", "="), "1")]%string + 9 <= 10 /\
  exists s',
    parse 10
      (init (accepted_lines [("x", ("ASSIGNMENT_OPERATOR", "="), "1")]%string))
    = Ok (Some (mkNode "program" None
                  [mkNode "statement_list" None
                     (map accepted_node
                        [("x", ("ASSIGNMENT_OPERATOR", "="), "1")]%string)]))
         s'
    /\ errors s' = [].
Proof.
  split.
  - simpl. lia.
  - apply (parse_accepted_lines
             [("x", ("ASSIGNMENT_OPERATOR", "="), "1")]%string 10).
    simpl. lia.
Defined.

(** ** The token after a closing parenthesis *)

(** X15. After a parenthesised operand whose closing parenthesis is there,
    [factor] consumes the closing parenthesis and then one more token: the
    token [t] that follows the parenthesis is dropped without being looked
    at, and the cursor ends on the token after it. *)
Theorem factor_drops_token_after_parenthesis
    (fuel : nat) (lp x rp : string) (t : Token) (rest : list Token)
    (errs : list string) :
  let toks := (("OPENING_PARENTHESIS", lp) :: ("IDENTIFIER", x) ::
               ("CLOSING_PARENTHESIS", rp) :: t :: rest)%string in
  factor (7 + fuel)
    (mkParser toks (Some ("OPENING_PARENTHESIS", lp)%string) 1 errs) =
  Ok (Some (mkNode "expression" None
              [mkNode "term" None [mkNode "identifier" (Some x) []]]))
     (mkParser toks (nth_error rest 0)
        (match rest with [] => 4 | _ :: _ => 5 end) errs).
Proof. destruct t as [kt lt]. destruct rest; reflexivity. Qed.

(** ** [conditional_statement], [loop_statement] and [block] *)

Lemma skip_whitespace_Ok_errors fuel :
  forall s u s', skip_whitespace fuel s = Ok u s' -> errors s' = errors s.
Proof.
  induction fuel as [|f IH]; intros s u s' H; simpl in H; [discriminate|].
  apply bind_Ok_inv in H. destruct H as (b & s0 & Hm & H).
  apply match_token_true in Hm. destruct Hm as [-> _].
  destruct b.
  - apply bind_Ok_inv in H. destruct H as (u1 & s1 & Hc & H).
    apply IH in H. apply consume_token_keeps in Hc. destruct Hc as (E & _).
    congruence.
  - unfold ret in H. injection H as _ <-. reflexivity.
Qed.

(** X16. [conditional_statement] never raises and never logs.  With fuel
    above the number of remaining tokens it returns, either the absence
    signal or a [conditional_statement] node that carries a lexeme and has
    no children: the branches that call [block] are never taken. *)
Theorem conditional_statement_total (fuel : nat) (s : Parser) :
  remaining s + 1 < fuel ->
  exists r s',
    conditional_statement fuel s = Ok r s' /\ errors s' = errors s /\
    (r = None \/
     exists l, r = Some (mkNode "conditional_statement" (Some l) [])).
Proof.
  intros Hfuel. destruct fuel as [|f]; [lia|].
  destruct (skip_whitespace_total f s) as (s1 & Hw & _ & E1 & _); [lia|].
  cbn [conditional_statement]. unfold bind at 1. rewrite Hw.
  unfold bind at 1.
  destruct (current_token s1) as [[k l]|] eqn:C.
  - rewrite (match_token_current _ _ _ _ C).
    destruct (String.eqb k "CONDITIONAL_KEYWORD").
    + unfold bind at 1. rewrite (current_lexeme_current _ _ _ C).
      destruct (consume_token_Ok s1) as [s2 Hc]. unfold bind at 1.
      rewrite Hc. apply consume_token_keeps in Hc. destruct Hc as (E2 & _).
      eexists _, s2. split; [reflexivity|]. split; [congruence|].
      right. eauto.
    + eexists _, s1. split; [reflexivity|]. split; [exact E1|]. left.
      reflexivity.
  - unfold match_token. rewrite C.
    eexists _, s1. split; [reflexivity|]. split; [exact E1|]. left.
    reflexivity.
Qed.

Lemma conditional_statement_total_witness :
  remaining (started if_statement) + 1 < 11 /\
  exists r s',
    conditional_statement 11 (started if_statement) = Ok r s' /\
    errors s' = errors (started if_statement) /\
    (r = None \/
     exists l, r = Some (mkNode "conditional_statement" (Some l) [])).
Proof.
  split.
  - unfold remaining. simpl. lia.
  - apply (conditional_statement_total 11 (started if_statement)).
    unfold remaining. simpl. lia.
Defined.

(** X17. [block] never returns the absence signal: the node it returns is
    named [block], has no value, and has exactly one child, the
    [statement_list] node. *)
Theorem block_returns_statement_list
    (fuel : nat) (s : Parser) (r : option Node) (s' : Parser) :
  block fuel s = Ok r s' ->
  exists sl, r = Some (mkNode "block" None [sl]) /\
             name sl = "statement_list"%string.
Proof.
  intros H. destruct fuel as [|f]; simpl in H; [discriminate|].
  apply bind_Ok_inv in H. destruct H as (u & s1 & _ & H).
  apply bind_Ok_inv in H. destruct H as (a & s2 & Hsl & H).
  destruct f as [|f']; simpl in Hsl; [discriminate|].
  apply statement_list_loop_name in Hsl. destruct Hsl as (sl & -> & Hn).
  unfold ret in H. injection H as <- _. exists sl. split; [reflexivity|].
  exact Hn.
Qed.

Lemma block_returns_statement_list_witness :
  exists sl,
    Some (mkNode "block" None [mkNode "statement_list" None []]) =
    Some (mkNode "block" None [sl]) /\
    name sl = "statement_list"%string.
Proof.
  apply (block_returns_statement_list 3
           (started [("INDENT", "    ")]%string) _
           (mkParser [("INDENT", "    ")]%string None 1 [])).
  reflexivity.
Defined.

(** X18. The node of [loop_statement].  When [loop_statement] returns the
    absence signal it has logged nothing.  When it returns a node, the node
    is named [loop_statement] and either has no children, and then a
    diagnostic has been appended (the identifier is missing), or has exactly
    the two children [identifier] and [statement_list]. *)
Theorem loop_statement_shape
    (fuel : nat) (s : Parser) (r : option Node) (s' : Parser) :
  loop_statement fuel s = Ok r s' ->
  match r with
  | None => errors s' = errors s
  | Some n =>
      name n = "loop_statement"%string /\
      ((children n = [] /\ logged s s') \/
       exists id sl,
         children n = [id; sl] /\ name id = "identifier"%string /\
         name sl = "statement_list"%string)
  end.
Proof.
  intros H. destruct fuel as [|f]; simpl in H; [discriminate|].
  apply bind_Ok_inv in H. destruct H as (u0 & s0 & Hw & H).
  pose proof (monotone_Ok _ _ _ _ (monotone_skip_whitespace f) Hw) as X0.
  apply skip_whitespace_Ok_errors in Hw.
  apply bind_Ok_inv in H. destruct H as (b & s0' & Hm & H).
  apply match_token_true in Hm. destruct Hm as [-> _].
  destruct b.
  - apply bind_Ok_inv in H. destruct H as (l & s0' & Hl & H).
    apply current_lexeme_Ok in Hl. subst s0'.
    apply bind_Ok_inv in H. destruct H as (u1 & sa & Hc1 & H).
    pose proof (monotone_Ok _ _ _ _ monotone_consume_token Hc1) as X1.
    apply bind_Ok_inv in H. destruct H as (b & sa' & Hm & H).
    apply match_token_true in Hm. destruct Hm as [-> _].
    destruct b.
    + apply bind_Ok_inv in H. destruct H as (x & sa' & Hl & H).
      apply current_lexeme_Ok in Hl. subst sa'.
      apply bind_Ok_inv in H. destruct H as (u2 & sb & _ & H).
      apply bind_Ok_inv in H. destruct H as (u3 & sc & _ & H).
      apply bind_Ok_inv in H. destruct H as (u4 & sd & _ & H).
      apply bind_Ok_inv in H. destruct H as (u5 & se & _ & H).
      apply bind_Ok_inv in H. destruct H as (a & sf & Hsl & H).
      destruct f as [|f']; simpl in Hsl; [discriminate|].
      apply statement_list_loop_name in Hsl. destruct Hsl as (sl & -> & Hn).
      unfold ret in H. injection H as <- _.
      split; [reflexivity|]. right. eexists _, sl.
      split; [reflexivity|]. split; [reflexivity | exact Hn].
    + apply bind_Ok_inv in H. destruct H as (x & sa' & Hf & H).
      apply found_current_Ok in Hf. subst sa'.
      apply bind_Ok_inv in H. destruct H as (u2 & sb & Ha & H).
      unfold ret in H. injection H as <- <-.
      split; [reflexivity|]. left. split; [reflexivity|].
      eapply extends_logged; [eapply extends_trans; eassumption|].
      apply append_error_Ok in Ha. destruct Ha as (E & _).
      eexists _, []. exact E.
  - unfold ret in H. injection H as <- <-. exact Hw.
Qed.

Lemma loop_statement_shape_witness :
  name (mkNode "loop_statement" (Some "for"%string) []) =
  "loop_statement"%string /\
  ((children (mkNode "loop_statement" (Some "for"%string) []) = [] /\
    logged (started [("LOOP_KEYWORD", "for"); ("NUMBER", "1")]%string)
      (mkParser [("LOOP_KEYWORD", "for"); ("NUMBER", "1")]%string
         (Some ("NUMBER", "1")%string) 2
         ["Expected an identifier, found NUMBER: 1"%string])) \/
   exists id sl,
     children (mkNode "loop_statement" (Some "for"%string) []) = [id; sl] /\
     name id = "identifier"%string /\ name sl = "statement_list"%string).
Proof.
  apply (loop_statement_shape 2
           (started [("LOOP_KEYWORD", "for"); ("NUMBER", "1")]%string)
           (Some (mkNode "loop_statement" (Some "for"%string) []))
           (mkParser [("LOOP_KEYWORD", "for"); ("NUMBER", "1")]%string
              (Some ("NUMBER", "1")%string) 2
              ["Expected an identifier, found NUMBER: 1"%string])).
  reflexivity.
Defined.

(** ** [assignment_statement] at an identifier *)

(** X19. Started on an IDENTIFIER token, [assignment_statement] never
    returns the absence signal: when it returns, the node is an
    [assignment_statement] with exactly three children, the [identifier]
    with the lexeme of that token, an [assignment_operator] leaf and an
    [expression] node.  Its branch for a failed expression is never
    taken. *)
Theorem assignment_statement_three_children
    (fuel : nat) (s : Parser) (l : string) (r : option Node) (s' : Parser) :
  current_token s = Some ("IDENTIFIER", l)%string ->
  assignment_statement fuel s = Ok r s' ->
  exists op e,
    r = Some (mkNode "assignment_statement" None
                [mkNode "identifier" (Some l) [];
                 mkNode "assignment_operator" (Some op) []; e]) /\
    name e = "expression"%string.
Proof. exact (assignment_statement_at_identifier fuel s l r s'). Qed.

Lemma assignment_statement_three_children_witness :
  exists op e,
    Some (mkNode "assignment_statement" None
            [mkNode "identifier" (Some "x") [];
             mkNode "assignment_operator" (Some "1") [];
             mkNode "expression" None
               [mkNode "term" None [mkNode "number" (Some "2") []]]])%string =
    Some (mkNode "assignment_statement" None
            [mkNode "identifier" (Some "x"%string) [];
             mkNode "assignment_operator" (Some op) []; e]) /\
    name e = "expression"%string.
Proof.
  apply (assignment_statement_three_children 7
           (started [("IDENTIFIER", "x"); ("ASSIGNMENT_OPERATOR", "=");
                     ("NUMBER", "1"); ("NUMBER", "2"); ("NEWLINE", nl)]%string)
           "x" _
           (mkParser [("IDENTIFIER", "x"); ("ASSIGNMENT_OPERATOR", "=");
                      ("NUMBER", "1"); ("NUMBER", "2"); ("NEWLINE", nl)]%string
              (Some ("NEWLINE"%string, nl)) 5 [])).
  - reflexivity.
  - reflexivity.
Defined.

(** ** The statements of a tree that [parse] returns *)

Lemma statement_list_loop_clean fuel :
  forall n s r s',
    statement_list_loop fuel n s = Ok r s' ->
    errors s' = errors s ->
    exists new,
      r = Some (mkNode (name n) (value n) (children n ++ new)) /\
      Forall clean_statement new.
Proof.
  induction fuel as [|f IH]; intros n s r s' H E; simpl in H; [discriminate|].
  apply bind_Ok_inv in H. destruct H as (c & s0 & Hg & H).
  apply get_current_Ok in Hg. destruct Hg as [-> ->].
  destruct (current_token s) as [[k l]|] eqn:C.
  - apply bind_Ok_inv in H. destruct H as (a & s1 & Hst & H).
    pose proof (statement_dispatch_shape _ _ _ _ _ _ C Hst) as D.
    pose proof (monotone_Ok _ _ _ _ (monotone_statement f) Hst) as X1.
    destruct a as [st|].
    + pose proof (monotone_Ok _ _ _ _
                    (monotone_statement_list_loop f _) H) as X2.
      pose proof (extends_errors_squeeze _ _ _ X1 X2 E) as E1.
      pose proof (extends_errors_end _ _ _ X1 X2 E) as E2.
      destruct (IH _ _ _ _ H E2) as (new & -> & Hnew).
      exists (st :: new). split.
      * cbn [add_child name value children]. rewrite <- app_assoc.
        reflexivity.
      * constructor; [|exact Hnew].
        destruct D as [(_ & Hn)|[(_ & ->)|(-> & _)]].
        -- left. exact Hn.
        -- right. eauto.
        -- exfalso.
           apply (logged_not_same s s1); [|exact E1].
           eapply loop_statement_logs; eassumption.
    + exfalso. unfold ret in H. injection H as _ <-.
      destruct D as (_ & _ & _ & rest & L).
      apply (logged_not_same s s1); [|exact E].
      eexists _, rest. exact L.
  - unfold ret in H. injection H as <- _. exists [].
    split; [|constructor]. destruct n as [nm v cs]. simpl.
    rewrite app_nil_r. reflexivity.
Qed.

(** X20. In a tree that [parse] returns, every child of the
    [statement_list] node is an [assignment_statement] node or a childless
    [conditional_statement] node: no [loop_statement] node appears at the
    top level of a tree that [parse] returns, since a loop always leaves a
    diagnostic. *)
Theorem parse_tree_statements
    (fuel : nat) (toks : list Token) (t : Node) (s' : Parser) :
  parse fuel (init toks) = Ok (Some t) s' ->
  exists cs,
    t = mkNode "program" None [mkNode "statement_list" None cs] /\
    Forall clean_statement cs.
Proof.
  intros H. unfold parse in H. unfold bind at 1 in H.
  rewrite consume_token_init in H.
  apply bind_Ok_inv in H. destruct H as (t0 & s1 & Hp & H).
  unfold bind, get_errors in H.
  destruct (errors s1) as [|e es] eqn:E; unfold ret in H; [|discriminate].
  injection H as <- <-.
  destruct (program_Ok_shape _ _ _ _ Hp) as (sl & -> & Hsl).
  destruct fuel as [|f]; simpl in Hsl; [discriminate|].
  apply statement_list_loop_clean in Hsl.
  - destruct Hsl as (new & Hr & Hnew). injection Hr as ->.
    exists new. split; [reflexivity | exact Hnew].
  - rewrite E. destruct toks; reflexivity.
Qed.

Lemma parse_tree_statements_witness :
  exists cs,
    mkNode "program" None
      [mkNode "statement_list" None
         [mkNode "conditional_statement" (Some "if"%string) []]] =
    mkNode "program" None [mkNode "statement_list" None cs] /\
    Forall clean_statement cs.
Proof.
  apply (parse_tree_statements 6
           [("CONDITIONAL_KEYWORD", "if"); ("NEWLINE", nl)]%string _
           (mkParser [("CONDITIONAL_KEYWORD", "if"); ("NEWLINE", nl)]%string
              None 2 [])).
  reflexivity.
Defined.

(** ** The last token of an accepted token string *)

Lemma statement_clean_at_end fuel s r s' :
  coherent s ->
  statement fuel s = Ok r s' ->
  errors s' = errors s ->
  current_token s' = None ->
  ends_with_newline (tokens s').
Proof.
  intros Hco H E Cend. destruct fuel as [|f]; simpl in H; [discriminate|].
  apply bind_Ok_inv in H. destruct H as (a & s1 & Hd & H).
  apply bind_Ok_inv in H. destruct H as (u & s2 & Hn & H).
  unfold ret in H. injection H as _ <-.
  assert (Hco1 : coherent s1).
  { pose proof coherent_consume_token as Hc.
    pose proof coherent_append_error as Ha.
    pose proof (preserves_statement_group coherent Hc Ha f)
      as (_ & _ & _ & Hcs & Hls & _).
    match type of Hd with
    | ?D s = _ => assert (HD : preserves coherent D)
    end.
    { apply preserves_bind; [apply preserves_match_token|].
      intros [|]; [apply preserves_assignment_statement; assumption|].
      apply preserves_bind; [apply preserves_match_token|].
      intros [|]; [assumption|].
      apply preserves_bind; [apply preserves_match_token|].
      intros [|]; [assumption|].
      apply preserves_bind; [apply preserves_found_current|]. intros x.
      apply preserves_bind; [apply Ha|]. intros _.
      apply preserves_bind; [exact Hc|]. intros _. apply preserves_ret. }
    specialize (HD s Hco). rewrite Hd in HD. exact HD. }
  assert (X1 : extends s s1).
  { apply monotone_Ok in Hd; [exact Hd | monotone_tac]. }
  pose proof (monotone_Ok _ _ _ _ monotone_newline Hn) as X2.
  pose proof (extends_errors_end _ _ _ X1 X2 E) as E2.
  unfold newline in Hn.
  destruct (current_token s1) as [[k l]|] eqn:C1.
  - rewrite (expect_token_current _ _ _ _ C1) in Hn.
    destruct (String.eqb_spec k "NEWLINE") as [->|N].
    + destruct Hco1 as [L1 Hc1]. rewrite C1 in Hc1. destruct Hc1 as [I1 N1].
      unfold consume_token in Hn.
      destruct (Nat.ltb_spec (index s1) (length (tokens s1))) as [Lt|Ge];
        injection Hn as _ <-; simpl in Cend.
      * apply nth_error_None in Cend. lia.
      * simpl. exists l. replace (length (tokens s1)) with (index s1) by lia.
        exact N1.
    + exfalso. apply append_error_Ok in Hn. destruct Hn as (En & _).
      rewrite En in E2. rewrite <- (app_nil_r (errors s1)) in E2 at 2.
      apply app_inv_head in E2. discriminate.
  - rewrite (expect_token_without_current _ _ C1) in Hn. discriminate.
Qed.

Lemma statement_list_loop_clean_at_end fuel :
  forall n s r s',
    coherent s ->
    statement_list_loop fuel n s = Ok r s' ->
    errors s' = errors s ->
    current_token s' = None ->
    current_token s = None \/ ends_with_newline (tokens s').
Proof.
  induction fuel as [|f IH]; intros n s r s' Hco H E Cend; simpl in H;
    [discriminate|].
  apply bind_Ok_inv in H. destruct H as (c & s0 & Hg & H).
  apply get_current_Ok in Hg. destruct Hg as [-> ->].
  destruct (current_token s) as [t|] eqn:C; [|left; reflexivity].
  right.
  apply bind_Ok_inv in H. destruct H as (a & s1 & Hst & H).
  pose proof (monotone_Ok _ _ _ _ (monotone_statement f) Hst) as X1.
  assert (Hco1 : coherent s1).
  { pose proof (preserves_statement_group coherent coherent_consume_token
                  coherent_append_error f) as (_ & _ & Hp & _).
    specialize (Hp s Hco). rewrite Hst in Hp. exact Hp. }
  destruct a as [st|].
  - pose proof (monotone_Ok _ _ _ _ (monotone_statement_list_loop f _) H)
      as X2.
    pose proof (extends_errors_squeeze _ _ _ X1 X2 E) as E1.
    pose proof (extends_errors_end _ _ _ X1 X2 E) as E2.
    destruct (IH _ _ _ _ Hco1 H E2 Cend) as [C1|Hnl]; [|exact Hnl].
    rewrite (ext_tokens _ _ X2).
    exact (statement_clean_at_end f s _ s1 Hco Hst E1 C1).
  - unfold ret in H. injection H as _ <-.
    exact (statement_clean_at_end f s _ s1 Hco Hst E Cend).
Qed.

(** X21. A token string for which [parse] returns a tree is empty or ends
    with a NEWLINE token: every statement must be closed by its NEWLINE,
    the last one too. *)
Theorem parsed_input_ends_with_newline
    (fuel : nat) (toks : list Token) (t : Node) (s' : Parser) :
  parse fuel (init toks) = Ok (Some t) s' ->
  toks = [] \/ ends_with_newline toks.
Proof.
  intros H. unfold parse in H. unfold bind at 1 in H.
  rewrite consume_token_init in H.
  apply bind_Ok_inv in H. destruct H as (t0 & s1 & Hp & H).
  unfold bind, get_errors in H.
  destruct (errors s1) as [|e es] eqn:E; unfold ret in H; [|discriminate].
  injection H as _ <-.
  destruct (program_Ok_shape _ _ _ _ Hp) as (sl & _ & Hsl).
  pose proof (monotone_Ok _ _ _ _ (monotone_program fuel) Hp) as X.
  assert (Htk : tokens s1 = toks).
  { rewrite (ext_tokens _ _ X). destruct toks; reflexivity. }
  assert (E0 : errors s1 = errors (started toks)).
  { rewrite E. destruct toks; reflexivity. }
  assert (Cend : current_token s1 = None).
  { destruct (statement_list_exit _ _ _ _ Hsl) as [C|L]; [exact C|].
    exfalso. apply (logged_not_same _ _ L). exact E0. }
  destruct fuel as [|f]; simpl in Hsl; [discriminate|].
  destruct (statement_list_loop_clean_at_end _ _ _ _ _
              (coherent_started toks) Hsl E0 Cend) as [C|Hnl].
  - left. destruct toks; [reflexivity | discriminate].
  - right. rewrite Htk in Hnl. exact Hnl.
Qed.

Lemma parsed_input_ends_with_newline_witness :
  [("CONDITIONAL_KEYWORD", "if"); ("NEWLINE", nl)]%string = [] \/
  ends_with_newline [("CONDITIONAL_KEYWORD", "if"); ("NEWLINE", nl)]%string.
Proof.
  apply (parsed_input_ends_with_newline 6
           [("CONDITIONAL_KEYWORD", "if"); ("NEWLINE", nl)]%string
           (mkNode "program" None
              [mkNode "statement_list" None
                 [mkNode "conditional_statement" (Some "if"%string) []]])
           (mkParser [("CONDITIONAL_KEYWORD", "if"); ("NEWLINE", nl)]%string
              None 2 [])).
  reflexivity.
Defined.
